(** * Shallow embedding of sabos' scripts/apply-sysroot-patches.py and
      scripts/check-syscall-numbers.py

    Text is modelled as [String.string]: a character is a code point below
    256 (an [ascii]).  Python's [str.split("\n")], ["\n".join], substring
    test [in], [str.count] and [str.splitlines] are written out below. *)

From Stdlib Require Import String Ascii List ZArith Bool Lia.
From Stdlib Require Import Permutation Sorting.Sorted.
From Stdlib Require Import Numbers.DecimalString.
Import ListNotations.

Open Scope string_scope.
Open Scope list_scope.

Local Notation "a +:+ b" := (String.append a b) (at level 60, right associativity).

(** ** Characters and small strings *)

Definition nl : ascii := "010"%char.
Definition dq : ascii := "034"%char.
Definition nl_str : string := String nl EmptyString.

(** A Python string literal that contains double quotes: [quoted "x"] is
    the text ["x"] with the quotes. *)
Definition quoted (s : string) : string :=
  String dq EmptyString +:+ s +:+ String dq EmptyString.

(** ** Python string primitives *)

(** [str.split("\n")]: always at least one part. *)
Fixpoint split_nl (s : string) : list string :=
  match s with
  | EmptyString => [EmptyString]
  | String c rest =>
      let parts := split_nl rest in
      if Ascii.eqb c nl then EmptyString :: parts
      else match parts with
           | [] => [String c EmptyString]
           | p :: ps => String c p :: ps
           end
  end.

(** ["\n".join(parts)] *)
Fixpoint join_nl (parts : list string) : string :=
  match parts with
  | [] => EmptyString
  | [p] => p
  | p :: ps => p +:+ nl_str +:+ join_nl ps
  end.

Fixpoint prefixb (p s : string) : bool :=
  match p, s with
  | EmptyString, _ => true
  | String a p', String b s' => Ascii.eqb a b && prefixb p' s'
  | String _ _, EmptyString => false
  end.

(** Python's [needle in s]. *)
Fixpoint containsb (needle s : string) : bool :=
  prefixb needle s ||
  match s with
  | EmptyString => false
  | String _ s' => containsb needle s'
  end.

(** [s.count(c)] for a one-character [c]. *)
Fixpoint count_char (c : ascii) (s : string) : Z :=
  match s with
  | EmptyString => 0%Z
  | String a s' => ((if Ascii.eqb a c then 1 else 0) + count_char c s')%Z
  end.

(** ** Line-insertion primitives (lines 35-60) *)

Section InsertLoops.
Variables target_line insertion : string.

(** The [for line in lines] loop of [insert_before_line], with the
    [inserted] flag. *)
Fixpoint insert_before_loop (inserted : bool) (lines : list string)
  : list string :=
  match lines with
  | [] => []
  | line :: rest =>
      if negb inserted && containsb target_line line
      then insertion :: line :: insert_before_loop true rest
      else line :: insert_before_loop inserted rest
  end.

(** The loop of [insert_after_line]. *)
Fixpoint insert_after_loop (inserted : bool) (lines : list string)
  : list string :=
  match lines with
  | [] => []
  | line :: rest =>
      if negb inserted && containsb target_line line
      then line :: insertion :: insert_after_loop true rest
      else line :: insert_after_loop inserted rest
  end.

End InsertLoops.

Definition insert_before_line (content target_line insertion : string) : string :=
  join_nl (insert_before_loop target_line insertion false (split_nl content)).

Definition insert_after_line (content target_line insertion : string) : string :=
  join_nl (insert_after_loop target_line insertion false (split_nl content)).

(** ** The block-boundary scanner of [patch_alloc_mod] (lines 78-116) *)

Definition cfg_select_token : string := "cfg_select!".
Definition open_brace : ascii := "{"%char.
Definition close_brace : ascii := "}"%char.

(** The first loop (lines 94-103): returns [insert_idx], [-1] when the
    loop runs to the end without [break]. *)
Fixpoint cfg_select_scan (i : Z) (in_cfg_select : bool) (cfg_select_depth : Z)
         (lines : list string) : Z :=
  match lines with
  | [] => (-1)%Z
  | line :: rest =>
      let '(in_cfg, depth) :=
        if containsb cfg_select_token line && negb in_cfg_select
        then (true, 0%Z) else (in_cfg_select, cfg_select_depth) in
      if in_cfg then
        let depth' := (depth + (count_char open_brace line
                                - count_char close_brace line))%Z in
        if (depth' <=? 0)%Z then i
        else cfg_select_scan (i + 1) in_cfg depth' rest
      else cfg_select_scan (i + 1) in_cfg depth rest
  end.

Definition sabos_alloc_lines : list string :=
  [ "    target_os = " +:+ quoted "sabos" +:+ " => {";
    "        mod sabos;";
    "    }" ].

(** The second loop (lines 109-114). *)
Fixpoint alloc_emit (i insert_idx : Z) (lines : list string) : list string :=
  match lines with
  | [] => []
  | line :: rest =>
      (if (i =? insert_idx)%Z then sabos_alloc_lines else [])
        ++ line :: alloc_emit (i + 1) insert_idx rest
  end.

Definition patch_alloc_mod (content : string) : string :=
  let lines := split_nl content in
  let insert_idx := cfg_select_scan 0 false 0 lines in
  if (insert_idx <? 0)%Z then content
  else join_nl (alloc_emit 0 insert_idx lines).

(** ** The patch functions (lines 67-204) *)

Definition sabos_target : string := "target_os = " +:+ quoted "sabos".

Definition patch_pal_mod (content : string) : string :=
  let sabos_branch := join_nl
    [ "    " +:+ sabos_target +:+ " => {";
      "        mod sabos;";
      "        pub use self::sabos::*;";
      "    }" ] in
  insert_before_line content "    _ => {" sabos_branch.

Definition patch_stdio_mod (content : string) : string :=
  let sabos_branch := join_nl
    [ "    " +:+ sabos_target +:+ " => {";
      "        mod sabos;";
      "        pub use sabos::*;";
      "    }" ] in
  insert_before_line content "    _ => {" sabos_branch.

Definition patch_thread_local_mod (content : string) : string :=
  let content := insert_after_line content
    ("        target_os = " +:+ quoted "vexos" +:+ ",")
    ("        " +:+ sabos_target +:+ ",") in
  let content := insert_after_line content
    ("            target_os = " +:+ quoted "vexos" +:+ ",")
    ("            " +:+ sabos_target +:+ ",") in
  content.

Definition patch_env_consts (content : string) : string :=
  let sabos_entry := join_nl
    [ "#[cfg(" +:+ sabos_target +:+ ")]";
      "pub mod os {";
      "    pub const FAMILY: &str = " +:+ quoted EmptyString +:+ ";";
      "    pub const OS: &str = " +:+ quoted "sabos" +:+ ";";
      "    pub const DLL_PREFIX: &str = " +:+ quoted EmptyString +:+ ";";
      "    pub const DLL_SUFFIX: &str = " +:+ quoted EmptyString +:+ ";";
      "    pub const DLL_EXTENSION: &str = " +:+ quoted EmptyString +:+ ";";
      "    pub const EXE_SUFFIX: &str = " +:+ quoted ".elf" +:+ ";";
      "    pub const EXE_EXTENSION: &str = " +:+ quoted "elf" +:+ ";";
      "}";
      EmptyString ] in
  insert_before_line content
    "// The fallback when none of the other gates match." sabos_entry.

Definition patch_io_error_mod (content : string) : string :=
  insert_after_line content
    ("        target_os = " +:+ quoted "zkvm" +:+ ",")
    ("        " +:+ sabos_target +:+ ",").

Definition patch_random_mod (content : string) : string :=
  let sabos_branch := join_nl
    [ "    " +:+ sabos_target +:+ " => {";
      "        mod sabos;";
      "        pub use sabos::fill_bytes;";
      "    }" ] in
  insert_before_line content "    _ => {}" sabos_branch.

Definition patch_fs_mod (content : string) : string :=
  let sabos_branch := join_nl
    [ "    " +:+ sabos_target +:+ " => {";
      "        mod sabos;";
      "        use sabos as imp;";
      "    }" ] in
  insert_before_line content "    _ => {" sabos_branch.

Definition patch_os_mod (content : string) : string :=
  let sabos_entry := join_nl
    [ "#[cfg(" +:+ sabos_target +:+ ")]";
      "pub mod sabos;" ] in
  insert_after_line content "pub mod xous;" sabos_entry.

(** The static table [patches] of [main] (lines 218-228). *)
Definition patches : list (string * string * (string -> string)) :=
  [ ("sys/pal/mod.rs", sabos_target, patch_pal_mod);
    ("sys/alloc/mod.rs", sabos_target, patch_alloc_mod);
    ("sys/stdio/mod.rs", sabos_target, patch_stdio_mod);
    ("sys/thread_local/mod.rs", sabos_target, patch_thread_local_mod);
    ("sys/env_consts.rs", sabos_target, patch_env_consts);
    ("sys/io/error/mod.rs", sabos_target, patch_io_error_mod);
    ("sys/random/mod.rs", sabos_target, patch_random_mod);
    ("sys/fs/mod.rs", sabos_target, patch_fs_mod);
    ("os/mod.rs", sabos_target, patch_os_mod) ].

(** ** File system, output streams and exceptions of the patch tool *)

(** The exceptions that can leave a run: [sys.exit(code)] raises
    [SystemExit]; [open(path, "r")] on a missing file raises
    [FileNotFoundError]. *)
Inductive exn : Type :=
| SystemExit (code : Z)
| FileNotFoundError (path : string).

(** The process state seen by the script: file contents by path, what it
    printed to stdout and stderr (one entry per [print] call), and the paths
    it opened for writing, in order. *)
Record world : Type := mk_world {
  files : list (string * string);
  stdout : list string;
  stderr : list string;
  writes : list string
}.

Fixpoint fs_lookup (p : string) (fs : list (string * string)) : option string :=
  match fs with
  | [] => None
  | (q, c) :: rest => if String.eqb p q then Some c else fs_lookup p rest
  end.

Fixpoint fs_update (p c : string) (fs : list (string * string))
  : list (string * string) :=
  match fs with
  | [] => [(p, c)]
  | (q, c') :: rest =>
      if String.eqb p q then (q, c) :: rest else (q, c') :: fs_update p c rest
  end.

Inductive result (A : Type) : Type :=
| Ok (a : A)
| Raised (e : exn).
Arguments Ok {A} a.
Arguments Raised {A} e.

(** A state and exception monad. *)
Definition M (A : Type) : Type := world -> result A * world.

Definition ret {A} (a : A) : M A := fun w => (Ok a, w).
Definition raise {A} (e : exn) : M A := fun w => (Raised e, w).
Definition bind {A B} (m : M A) (k : A -> M B) : M B :=
  fun w => match m w with
           | (Ok a, w') => k a w'
           | (Raised e, w') => (Raised e, w')
           end.

Notation "x <- m ;; k" := (bind m (fun x => k))
  (at level 61, m at next level, right associativity).
Notation "m ;;; k" := (bind m (fun _ => k))
  (at level 61, right associativity).

Definition print_out (s : string) : M unit :=
  fun w => (Ok tt, mk_world (files w) (stdout w ++ [s]) (stderr w) (writes w)).

Definition print_err (s : string) : M unit :=
  fun w => (Ok tt, mk_world (files w) (stdout w) (stderr w ++ [s]) (writes w)).

(** [with open(path, "r") as f: f.read()] *)
Definition read_file (p : string) : M string :=
  fun w => match fs_lookup p (files w) with
           | Some c => (Ok c, w)
           | None => (Raised (FileNotFoundError p), w)
           end.

(** [with open(path, "w") as f: f.write(c)] *)
Definition write_file (p c : string) : M unit :=
  fun w => (Ok tt, mk_world (fs_update p c (files w)) (stdout w) (stderr w)
                            (writes w ++ [p])).

(** ** [os.path] helpers used by [patch_file] and [main] *)

Definition slash : ascii := "/"%char.
Definition slash_str : string := String slash EmptyString.

(** [os.path.basename]: the text after the last slash. *)
Fixpoint basename (p : string) : string :=
  match p with
  | EmptyString => EmptyString
  | String c r =>
      if containsb slash_str r then basename r
      else if Ascii.eqb c slash then r else p
  end.

(** [p[:p.rfind("/") + 1]] *)
Fixpoint dir_head (p : string) : string :=
  match p with
  | EmptyString => EmptyString
  | String c r =>
      if containsb slash_str r then String c (dir_head r)
      else if Ascii.eqb c slash then slash_str else EmptyString
  end.

Definition all_slashes (s : string) : bool :=
  forallb (fun c => Ascii.eqb c slash) (list_ascii_of_string s).

(** [s.rstrip("/")] *)
Definition rstrip_slash (s : string) : string :=
  let fix drop (l : list ascii) :=
    match l with
    | c :: l' => if Ascii.eqb c slash then drop l' else l
    | [] => []
    end in
  string_of_list_ascii (rev (drop (rev (list_ascii_of_string s)))).

(** [os.path.dirname] (posixpath). *)
Definition dirname (p : string) : string :=
  let head := dir_head p in
  if negb (String.eqb head EmptyString) && negb (all_slashes head)
  then rstrip_slash head else head.

(** [os.path.join(a, b)] for two components. *)
Definition path_join (a b : string) : string :=
  if prefixb slash_str b then b
  else if String.eqb a EmptyString || String.eqb (basename a) EmptyString
  then a +:+ b
  else a +:+ slash_str +:+ b.

(** ** [patch_file] (lines 15-32) *)

(** Which of its three prints [patch_file] performed before returning:
    [[SKIP]], [[WARN]] or [[PATCH]].  The Python function returns [None];
    the model returns the status it reported. *)
Inductive status : Type := SKIPPED | NO_EFFECT | PATCHED.

Definition patch_file (filepath check_marker : string) (patch_fn : string -> string)
  : M status :=
  let rel := basename (dirname filepath) +:+ slash_str +:+ basename filepath in
  content <- read_file filepath ;;
  if containsb check_marker content then
    print_out ("[SKIP] " +:+ rel +:+ " already patched") ;;; ret SKIPPED
  else
    let new_content := patch_fn content in
    if String.eqb new_content content then
      print_out ("[WARN] " +:+ rel +:+ " patch had no effect!") ;;; ret NO_EFFECT
    else
      write_file filepath new_content ;;;
      print_out ("[PATCH] " +:+ rel) ;;; ret PATCHED.

(** ** [main] (lines 211-232) *)

Fixpoint apply_patches (std_src : string)
         (table : list (string * string * (string -> string))) : M unit :=
  match table with
  | [] => ret tt
  | (rel_path, marker, patch_fn) :: rest =>
      patch_file (path_join std_src rel_path) marker patch_fn ;;;
      apply_patches std_src rest
  end.

(** [sys.argv] is [argv0 :: args]. *)
Definition main (argv0 : string) (args : list string) : M unit :=
  match args with
  | [std_src] => apply_patches std_src patches
  | _ =>
      print_err ("Usage: " +:+ argv0 +:+ " <STD_SRC_PATH>") ;;;
      raise (SystemExit 1)
  end.



(** ** Definitions used in the statements about the patch tool *)

(** [line] does not contain [target_line]. *)
Definition no_match (target_line line : string) : Prop :=
  containsb target_line line = false.

(** The [rel] that [patch_file] prints. *)
Definition rel_of (filepath : string) : string :=
  basename (dirname filepath) +:+ slash_str +:+ basename filepath.

(** Every patch function of the table either changes nothing or leaves
    the marker in its result. *)
Definition marks (f : string -> string) : Prop :=
  forall content, f content = content \/ containsb sabos_target (f content) = true.

(** Inputs of the witnesses: a text with the anchor on two lines, and a
    [cfg_select!] block with two nested blocks. *)
Definition two_anchor_text : string :=
  join_nl ["a"; "    _ => {"; "b"; "    _ => {"].

Definition nested_alloc_pre : list string := ["use core::alloc;"].
Definition nested_alloc_body : list string :=
  [ "    unix => {";
    "        mod unix;";
    "    }";
    "    target_os = " +:+ quoted "zkvm" +:+ " => {";
    "        mod zkvm;";
    "    }" ].
Definition nested_alloc_text : string :=
  join_nl (nested_alloc_pre ++ "cfg_select! {" :: nested_alloc_body ++ "}" :: [EmptyString]).

(** A file system holding every patch target of the table under
    [std_src], each with the same content. *)
Definition all_targets (std_src content : string) : list (string * string) :=
  map (fun d : string * string * (string -> string) =>
         (path_join std_src (fst (fst d)), content)) patches.

(** * scripts/check-syscall-numbers.py *)

Module CheckSyscallNumbers.

(** ** Python 3 [str] character classes, for code points below 256 *)

Definition code (c : ascii) : nat := nat_of_ascii c.

(** [\d]: Unicode decimal digits; below 256 only ASCII [0-9]. *)
Definition is_digit (c : ascii) : bool :=
  (Nat.leb 48 (code c)) && (Nat.leb (code c) 57).

(** [\w]: [str.isalnum()] or underscore. *)
Definition is_word (c : ascii) : bool :=
  let n := code c in
  is_digit c || ((Nat.leb 65 n) && (Nat.leb n 90)) || ((Nat.leb 97 n) && (Nat.leb n 122))
  || (Nat.eqb n 95)
  || existsb (Nat.eqb n) [170; 178; 179; 181; 185; 186; 188; 189; 190]
  || ((Nat.leb 192 n) && (Nat.leb n 255) && negb (Nat.eqb n 215) && negb (Nat.eqb n 247)).

(** [\s]: [str.isspace()]. *)
Definition is_space (c : ascii) : bool :=
  let n := code c in
  ((Nat.leb 9 n) && (Nat.leb n 13)) || ((Nat.leb 28 n) && (Nat.leb n 32))
  || (Nat.eqb n 133) || (Nat.eqb n 160).

(** Line boundaries of [str.splitlines()]; [\r\n] counts as one. *)
Definition is_line_break (c : ascii) : bool :=
  existsb (Nat.eqb (code c)) [10; 11; 12; 13; 28; 29; 30; 133].

Fixpoint splitlines_aux (cur : list ascii) (l : list ascii) : list string :=
  match l with
  | [] => match cur with
          | [] => []
          | _ => [string_of_list_ascii (rev cur)]
          end
  | c :: l' =>
      if is_line_break c then
        string_of_list_ascii (rev cur) ::
          splitlines_aux []
            (if Nat.eqb (code c) 13
             then match l' with
                  | d :: t => if Nat.eqb (code d) 10 then t else l'
                  | [] => l'
                  end
             else l')
      else splitlines_aux (c :: cur) l'
  end.

(** [text.splitlines()] *)
Definition splitlines (text : string) : list string :=
  splitlines_aux [] (list_ascii_of_string text).

(** ** The three regular expressions (lines 30-37)

    Matching at one position is written with a small parser type.  In each
    pattern, every repeated class is followed by a character outside that
    class ([\w+] by [:], [\s*] by [u], [=], [;], [,], [/] or a digit, [\d+] by
    [\s], [;] or [u]), or ends the pattern; so the greedy run is the only one
    the backtracking matcher can succeed with, and taking the maximal run
    without backtracking matches exactly the same strings. *)

Definition parser (A : Type) : Type := list ascii -> option (A * list ascii).

Definition pret {A} (a : A) : parser A := fun l => Some (a, l).
Definition pbind {A B} (p : parser A) (k : A -> parser B) : parser B :=
  fun l => match p l with
           | Some (a, r) => k a r
           | None => None
           end.

Notation "x <~ p ;; k" := (pbind p (fun x => k))
  (at level 61, p at next level, right associativity).
Notation "p ;~ k" := (pbind p (fun _ => k))
  (at level 61, right associativity).

(** A literal. *)
Fixpoint lit (s : list ascii) : parser unit :=
  fun l =>
    match s, l with
    | [], _ => Some (tt, l)
    | a :: s', b :: l' => if Ascii.eqb a b then lit s' l' else None
    | _ :: _, [] => None
    end.

Definition lits (s : string) : parser unit := lit (list_ascii_of_string s).

(** The maximal prefix of characters of a class. *)
Fixpoint span (cls : ascii -> bool) (l : list ascii) : list ascii * list ascii :=
  match l with
  | c :: l' => if cls c then let '(x, r) := span cls l' in (c :: x, r)
               else ([], l)
  | [] => ([], [])
  end.

(** [cls*] and [cls+], greedy. *)
Definition star (cls : ascii -> bool) : parser (list ascii) :=
  fun l => Some (span cls l).
Definition plus (cls : ascii -> bool) : parser (list ascii) :=
  fun l => match span cls l with
           | ([], _) => None
           | (x, r) => Some (x, r)
           end.

(** [int(digits)] *)
Definition decimal_value (ds : list ascii) : Z :=
  fold_left (fun acc d => (acc * 10 + Z.of_nat (code d - 48))%Z) ds 0%Z.

(** [(SYS_\w+)] *)
Definition sys_name : parser string :=
  lits "SYS_" ;~ w <~ plus is_word ;; pret ("SYS_" +:+ string_of_list_ascii w).

(** [:\s*u64\s*=\s*(\d+)\s*;] *)
Definition u64_decl_tail : parser Z :=
  lits ":" ;~ star is_space ;~ lits "u64" ;~ star is_space ;~ lits "=" ;~
  star is_space ;~ ds <~ plus is_digit ;; star is_space ;~ lits ";" ;~
  pret (decimal_value ds).

(** [RE_CANONICAL = r"pub const (SYS_\w+):\s*u64\s*=\s*(\d+)\s*;"] *)
Definition RE_CANONICAL : parser (string * Z) :=
  lits "pub const " ;~ name <~ sys_name ;; number <~ u64_decl_tail ;;
  pret (name, number).

(** [RE_PAL_CONST = r"const (SYS_\w+):\s*u64\s*=\s*(\d+)\s*;"] *)
Definition RE_PAL_CONST : parser (string * Z) :=
  lits "const " ;~ name <~ sys_name ;; number <~ u64_decl_tail ;;
  pret (name, number).

(** [RE_PAL_ASM = r'in\("rax"\)\s+(\d+)u64\s*,\s*//\s*(SYS_\w+)'];
    the groups are (number, name). *)
Definition RE_PAL_ASM : parser (Z * string) :=
  lits ("in(" +:+ quoted "rax" +:+ ")") ;~ plus is_space ;~
  ds <~ plus is_digit ;; lits "u64" ;~ star is_space ;~ lits "," ;~
  star is_space ;~ lits "//" ;~ star is_space ;~ name <~ sys_name ;;
  pret (decimal_value ds, name).

(** [pattern.search(line)]: the leftmost position where the pattern
    matches. *)
Fixpoint search_list {A} (p : parser A) (l : list ascii) : option A :=
  match p l with
  | Some (a, _) => Some a
  | None => match l with
            | [] => None
            | _ :: l' => search_list p l'
            end
  end.

Definition search {A} (p : parser A) (line : string) : option A :=
  search_list p (list_ascii_of_string line).

(** ** The canonical dict (insertion-ordered, a later assignment to an
    existing key overwrites its value in place) *)

Definition dict : Type := list (string * Z).

Fixpoint dict_get (k : string) (d : dict) : option Z :=
  match d with
  | [] => None
  | (k', v) :: d' => if String.eqb k k' then Some v else dict_get k d'
  end.

Fixpoint dict_set (k : string) (v : Z) (d : dict) : dict :=
  match d with
  | [] => [(k, v)]
  | (k', v') :: d' =>
      if String.eqb k k' then (k', v) :: d' else (k', v') :: dict_set k v d'
  end.

Definition show_Z (z : Z) : string := NilEmpty.string_of_int (Z.to_int z).

(** ** The environment of a run: [PROJECT_ROOT], the canonical file
    ([None] when it does not exist) and the entries of [PAL_DIR] as
    (file name, content) pairs ([None] when the directory does not exist). *)
Record env : Type := mk_env {
  project_root : string;
  canonical_file : option string;
  pal_dir : option (list (string * string))
}.

Definition canonical_path (e : env) : string :=
  project_root e +:+ "/libs/sabos-syscall/src/lib.rs".

(** The [for] loop of [load_canonical] (lines 47-51). *)
Definition load_lines (lines : list string) : dict :=
  fold_left (fun result line =>
               match search RE_CANONICAL line with
               | Some (name, number) => dict_set name number result
               | None => result
               end) lines [].

(** [load_canonical] (lines 40-52): [None] is the [sys.exit(2)] path. *)
Definition load_canonical (canonical : option string) : option dict :=
  match canonical with
  | None => None
  | Some text => Some (load_lines (splitlines text))
  end.

(** ** Mismatch entries.  The Python list holds the formatted strings;
    the model keeps their fields and formats them with [render]. *)
Record mismatch : Type := mk_mismatch {
  mm_path : string;
  mm_line : Z;
  mm_name : string;
  mm_number : Z;
  mm_asm : bool;            (** pattern 2, printed with the [u64] suffix *)
  mm_expected : option Z    (** [None]: not found in canonical source *)
}.

Definition render (m : mismatch) : string :=
  "  " +:+ mm_path m +:+ ":" +:+ show_Z (mm_line m) +:+ ": " +:+ mm_name m
  +:+ " = " +:+ show_Z (mm_number m) +:+ (if mm_asm m then "u64" else EmptyString)
  +:+ " " +:+
  match mm_expected m with
  | Some e => "(expected " +:+ show_Z e +:+ ")"
  | None => "(not found in canonical source)"
  end.

(** The two [if]/[elif] tests after a match (lines 72-81 and 87-96). *)
Definition check_match (canonical : dict) (rel_path : string) (i : Z)
           (name : string) (number : Z) (asm : bool) : list mismatch :=
  match dict_get name canonical with
  | Some expected =>
      if negb (expected =? number)%Z
      then [mk_mismatch rel_path i name number asm (Some expected)]
      else []
  | None => [mk_mismatch rel_path i name number asm None]
  end.

(** The body of the line loop (lines 68-96). *)
Definition check_line (canonical : dict) (rel_path : string) (i : Z)
           (line : string) : list mismatch :=
  (match search RE_PAL_CONST line with
   | Some (name, number) => check_match canonical rel_path i name number false
   | None => []
   end) ++
  (match search RE_PAL_ASM line with
   | Some (number, name) => check_match canonical rel_path i name number true
   | None => []
   end).

(** [for i, line in enumerate(lines, start=i)] *)
Fixpoint check_lines (canonical : dict) (rel_path : string) (i : Z)
         (lines : list string) : list mismatch :=
  match lines with
  | [] => []
  | line :: rest =>
      check_line canonical rel_path i line ++ check_lines canonical rel_path (i + 1) rest
  end.

(** [PAL_DIR.glob("*.rs")]: the entries whose name ends in [.rs]. *)
Definition is_rs (name : string) : bool :=
  let l := rev (list_ascii_of_string name) in
  match l with
  | c1 :: c2 :: c3 :: _ =>
      Ascii.eqb c1 "s"%char && Ascii.eqb c2 "r"%char && Ascii.eqb c3 "."%char
  | _ => false
  end.

(** [sorted(...)]: paths in one directory compare by file name. *)
Fixpoint insert_sorted (x : string * string) (l : list (string * string))
  : list (string * string) :=
  match l with
  | [] => [x]
  | y :: l' => if String.leb (fst x) (fst y) then x :: l else y :: insert_sorted x l'
  end.

Definition sort_entries (l : list (string * string)) : list (string * string) :=
  fold_right insert_sorted [] l.

Definition pal_files (entries : list (string * string)) : list (string * string) :=
  sort_entries (filter (fun e => is_rs (fst e)) entries).

(** [check_pal_files] (lines 55-98). *)
Definition check_pal_files (canonical : dict)
           (pal : option (list (string * string))) : list mismatch :=
  match pal with
  | None => []
  | Some entries =>
      flat_map (fun '(name, content) =>
                  check_lines canonical ("rust-std-sabos/" +:+ name) 1
                              (splitlines content))
               (pal_files entries)
  end.

(** The end of a run: exit code, what it printed and which files it read. *)
Record run : Type := mk_run {
  exit_code : Z;
  out : list string;
  err : list string;
  reads : list string
}.

(** [main] (lines 101-114). *)
Definition main (e : env) : run :=
  match load_canonical (canonical_file e) with
  | None =>
      mk_run 2 [] ["ERROR: canonical file not found: " +:+ canonical_path e] []
  | Some canonical =>
      let loaded := "Loaded " +:+ show_Z (Z.of_nat (length canonical))
                    +:+ " syscall definitions from canonical source" in
      let errors := check_pal_files canonical (pal_dir e) in
      let read := canonical_path e ::
        match pal_dir e with
        | None => []
        | Some entries =>
            map (fun f => project_root e +:+ "/rust-std-sabos/" +:+ fst f)
                (pal_files entries)
        end in
      match errors with
      | [] => mk_run 0 [loaded; "PASSED: all PAL syscall numbers match canonical source"]
                     [] read
      | _ :: _ =>
          mk_run 1 ([loaded; nl_str +:+ "FAILED: " +:+ show_Z (Z.of_nat (length errors))
                              +:+ " syscall number mismatch(es) found:"]
                    ++ map render errors) [] read
      end
  end.

(** ** Shapes of the text a pattern match spans *)

(** The text a [RE_CANONICAL] or [RE_PAL_CONST] match spans:
    [lead] then [SYS_<word chars>:<sp>u64<sp>=<sp><digits><sp>;]. *)
Definition u64_decl (lead : string) (l : list ascii) (name : string) (number : Z)
  : Prop :=
  exists pre w ws1 ws2 ws3 ds ws4 rest,
    l = pre ++ list_ascii_of_string lead ++ list_ascii_of_string "SYS_" ++ w
            ++ [":"%char] ++ ws1 ++ list_ascii_of_string "u64" ++ ws2
            ++ ["="%char] ++ ws3 ++ ds ++ ws4 ++ [";"%char] ++ rest /\
    w <> [] /\ Forall (fun c => is_word c = true) w /\
    Forall (fun c => is_space c = true) (ws1 ++ ws2 ++ ws3 ++ ws4) /\
    ds <> [] /\ Forall (fun c => is_digit c = true) ds /\
    name = "SYS_" +:+ string_of_list_ascii w /\
    number = decimal_value ds /\ (0 <= number)%Z.

(** The text a [RE_PAL_ASM] match spans:
    [in("rax")<sp+><digits>u64<sp>,<sp>//<sp>SYS_<word chars>]. *)
Definition asm_literal (l : list ascii) (number : Z) (name : string) : Prop :=
  exists pre ws0 ds ws1 ws2 ws3 w rest,
    l = pre ++ list_ascii_of_string ("in(" +:+ quoted "rax" +:+ ")") ++ ws0 ++ ds
            ++ list_ascii_of_string "u64" ++ ws1 ++ [","%char] ++ ws2
            ++ list_ascii_of_string "//" ++ ws3 ++ list_ascii_of_string "SYS_"
            ++ w ++ rest /\
    ws0 <> [] /\ Forall (fun c => is_space c = true) (ws0 ++ ws1 ++ ws2 ++ ws3) /\
    ds <> [] /\ Forall (fun c => is_digit c = true) ds /\
    w <> [] /\ Forall (fun c => is_word c = true) w /\
    name = "SYS_" +:+ string_of_list_ascii w /\
    number = decimal_value ds /\ (0 <= number)%Z.

(** Inputs of the witnesses. *)
Definition asm_line : string := "in(" +:+ quoted "rax" +:+ ") 12u64, // SYS_OPEN".

(** The environment of the spec's consistency round trip. *)
Definition round_trip_env : env :=
  mk_env "/sabos"
    (Some (join_nl ["pub const SYS_READ: u64 = 0;"; "pub const SYS_WRITE: u64 = 1;"]))
    (Some [("pal.rs", "const SYS_WRITE: u64 = 2;")]).

End CheckSyscallNumbers.

(** ** Brace depth, as the block-boundary scanner counts it *)

(** [line.count("{") - line.count("}")] *)
Definition net (line : string) : Z :=
  (count_char open_brace line - count_char close_brace line)%Z.

Definition sum_net (lines : list string) : Z :=
  fold_right (fun l acc => (net l + acc)%Z) 0%Z lines.

(** ** Subsequences of a text *)

(** [is_subseq s t]: the characters of [s] occur in [t] in order (greedy
    test), i.e. [t] is [s] with characters inserted. *)
Fixpoint is_subseq (s t : string) : bool :=
  match t with
  | EmptyString => match s with EmptyString => true | String _ _ => false end
  | String b t' =>
      match s with
      | EmptyString => true
      | String a s' => if Ascii.eqb a b then is_subseq s' t' else is_subseq s t'
      end
  end.

(** The same relation, inductively. *)
Inductive Subseq : string -> string -> Prop :=
| sub_nil t : Subseq EmptyString t
| sub_take a s t : Subseq s t -> Subseq (String a s) (String a t)
| sub_skip a s t : Subseq s t -> Subseq s (String a t).

(** * Proofs *)

(** ** Strings *)

Lemma append_empty_r (s : string) : s +:+ EmptyString = s.
Proof. induction s as [|c s IH]; simpl; [reflexivity | now rewrite IH]. Qed.

Lemma append_assoc_str (a b c : string) : (a +:+ b) +:+ c = a +:+ (b +:+ c).
Proof. induction a as [|x a IH]; simpl; [reflexivity | now rewrite IH]. Qed.

Lemma prefixb_spec (p s : string) :
  prefixb p s = true <-> exists y, s = p +:+ y.
Proof.
  revert s; induction p as [|a p IH]; intros [|b s]; simpl.
  - split; [intros _; now exists EmptyString | reflexivity].
  - split; [intros _; now exists (String b s) | reflexivity].
  - split; [discriminate | intros [y Hy]; discriminate].
  - rewrite andb_true_iff, Ascii.eqb_eq, IH. split.
    + intros [-> [y ->]]. now exists y.
    + intros [y Hy]. injection Hy as -> ->. split; [reflexivity | now exists y].
Qed.

Lemma containsb_spec (n s : string) :
  containsb n s = true <-> exists x y, s = x +:+ n +:+ y.
Proof.
  split.
  - induction s as [|c s IH]; simpl; rewrite orb_true_iff, prefixb_spec.
    + intros [[y Hy] | H]; [now exists EmptyString, y | discriminate].
    + intros [[y Hy] | H].
      * now exists EmptyString, y.
      * destruct (IH H) as (x & y & ->). now exists (String c x), y.
  - intros (x & y & ->). induction x as [|c x IH]; simpl.
    + assert (Hp : prefixb n (n +:+ y) = true) by (apply prefixb_spec; now exists y).
      destruct (n +:+ y); simpl; now rewrite Hp.
    + apply orb_true_iff. now right.
Qed.

Lemma containsb_trans (a b c : string) :
  containsb a b = true -> containsb b c = true -> containsb a c = true.
Proof.
  rewrite !containsb_spec. intros (x1 & y1 & ->) (x2 & y2 & ->).
  exists (x2 +:+ x1), (y1 +:+ y2). now rewrite !append_assoc_str.
Qed.

Lemma split_nl_not_nil (s : string) : split_nl s <> [].
Proof.
  destruct s as [|c s]; simpl; [discriminate|].
  destruct (Ascii.eqb c nl); [discriminate|].
  destruct (split_nl s); discriminate.
Qed.

Lemma join_nl_cons_char (c : ascii) (p : string) (ps : list string) :
  join_nl (String c p :: ps) = String c (join_nl (p :: ps)).
Proof. destruct ps; reflexivity. Qed.

(** Python: ["\n".join(s.split("\n")) == s]. *)
Lemma join_split_nl (s : string) : join_nl (split_nl s) = s.
Proof.
  induction s as [|c s IH]; [reflexivity|].
  destruct (Ascii.eqb c nl) eqn:E.
  - apply Ascii.eqb_eq in E. subst c.
    change (split_nl (String nl s)) with (EmptyString :: split_nl s).
    destruct (split_nl s) as [|p ps] eqn:Hs; [now destruct (split_nl_not_nil s)|].
    change (String nl (join_nl (p :: ps)) = String nl s). now rewrite IH.
  - cbn [split_nl]. rewrite E.
    destruct (split_nl s) as [|p ps] eqn:Hs; [now destruct (split_nl_not_nil s)|].
    now rewrite join_nl_cons_char, IH.
Qed.

Lemma join_nl_has_member (pre post : list string) (m : string) :
  containsb m (join_nl (pre ++ m :: post)) = true.
Proof.
  apply containsb_spec.
  induction pre as [|p pre IH]; simpl.
  - destruct post as [|q post].
    + exists EmptyString, EmptyString. simpl. now rewrite append_empty_r.
    + now exists EmptyString, (nl_str +:+ join_nl (q :: post)).
  - destruct IH as (x & y & Hxy).
    destruct (pre ++ m :: post) as [|r rs] eqn:E; [now destruct pre|].
    exists (p +:+ nl_str +:+ x), y. rewrite Hxy. now rewrite !append_assoc_str.
Qed.

(** ** Line-insertion primitives *)

Section InsertFacts.
Variables target_line insertion : string.

Lemma insert_before_loop_done (ls : list string) :
  insert_before_loop target_line insertion true ls = ls.
Proof. induction ls as [|l ls IH]; simpl; [reflexivity | now rewrite IH]. Qed.

Lemma insert_after_loop_done (ls : list string) :
  insert_after_loop target_line insertion true ls = ls.
Proof. induction ls as [|l ls IH]; simpl; [reflexivity | now rewrite IH]. Qed.

Lemma insert_before_loop_absent (ls : list string) :
  Forall (no_match target_line) ls -> insert_before_loop target_line insertion false ls = ls.
Proof.
  induction 1 as [|l ls Hl _ IH]; simpl; [reflexivity|].
  unfold no_match in Hl. now rewrite Hl, IH.
Qed.

Lemma insert_after_loop_absent (ls : list string) :
  Forall (no_match target_line) ls -> insert_after_loop target_line insertion false ls = ls.
Proof.
  induction 1 as [|l ls Hl _ IH]; simpl; [reflexivity|].
  unfold no_match in Hl. now rewrite Hl, IH.
Qed.

Lemma insert_before_loop_first (pre post : list string) (line : string) :
  Forall (no_match target_line) pre -> containsb target_line line = true ->
  insert_before_loop target_line insertion false (pre ++ line :: post)
  = pre ++ insertion :: line :: post.
Proof.
  intros Hpre Hl. induction Hpre as [|p pre Hp _ IH]; simpl.
  - now rewrite Hl, insert_before_loop_done.
  - unfold no_match in Hp. now rewrite Hp, IH.
Qed.

Lemma insert_after_loop_first (pre post : list string) (line : string) :
  Forall (no_match target_line) pre -> containsb target_line line = true ->
  insert_after_loop target_line insertion false (pre ++ line :: post)
  = pre ++ line :: insertion :: post.
Proof.
  intros Hpre Hl. induction Hpre as [|p pre Hp _ IH]; simpl.
  - now rewrite Hl, insert_after_loop_done.
  - unfold no_match in Hp. now rewrite Hp, IH.
Qed.

Lemma first_match_split (ls : list string) :
  Exists (fun l => containsb target_line l = true) ls ->
  exists pre line post, ls = pre ++ line :: post /\ Forall (no_match target_line) pre /\
                        containsb target_line line = true.
Proof.
  induction ls as [|l ls IH]; intros H; [inversion H|].
  destruct (containsb target_line l) eqn:E.
  - now exists [], l, ls.
  - inversion H as [? ? Hl | ? ? Hr]; subst; [congruence|].
    destruct (IH Hr) as (pre & line & post & -> & Hpre & Hline).
    exists (l :: pre), line, post. repeat split; auto.
Qed.

Lemma insert_before_loop_cases (ls : list string) :
  insert_before_loop target_line insertion false ls = ls \/
  exists pre post, insert_before_loop target_line insertion false ls
                   = pre ++ insertion :: post.
Proof.
  induction ls as [|l ls IH]; simpl; [now left|].
  destruct (containsb target_line l).
  - right. now exists [], (l :: insert_before_loop target_line insertion true ls).
  - destruct IH as [-> | (pre & post & ->)]; [now left|].
    right. now exists (l :: pre), post.
Qed.

Lemma insert_after_loop_cases (ls : list string) :
  insert_after_loop target_line insertion false ls = ls \/
  exists pre post, insert_after_loop target_line insertion false ls
                   = pre ++ insertion :: post.
Proof.
  induction ls as [|l ls IH]; simpl; [now left|].
  destruct (containsb target_line l).
  - right. now exists [l], (insert_after_loop target_line insertion true ls).
  - destruct IH as [-> | (pre & post & ->)]; [now left|].
    right. now exists (l :: pre), post.
Qed.

End InsertFacts.

Lemma insert_before_line_cases (content target_line insertion : string) :
  insert_before_line content target_line insertion = content \/
  containsb insertion (insert_before_line content target_line insertion) = true.
Proof.
  unfold insert_before_line.
  destruct (insert_before_loop_cases target_line insertion (split_nl content))
    as [-> | (pre & post & ->)].
  - left. apply join_split_nl.
  - right. apply join_nl_has_member.
Qed.

Lemma insert_after_line_cases (content target_line insertion : string) :
  insert_after_line content target_line insertion = content \/
  containsb insertion (insert_after_line content target_line insertion) = true.
Proof.
  unfold insert_after_line.
  destruct (insert_after_loop_cases target_line insertion (split_nl content))
    as [-> | (pre & post & ->)].
  - left. apply join_split_nl.
  - right. apply join_nl_has_member.
Qed.

(** ** The block-boundary scanner *)

Lemma cfg_select_scan_outside (pre rest : list string) (i d : Z) :
  Forall (fun l => containsb cfg_select_token l = false) pre ->
  cfg_select_scan i false d (pre ++ rest)
  = cfg_select_scan (i + Z.of_nat (length pre)) false d rest.
Proof.
  intros H. revert i. induction H as [|l pre Hl _ IH]; intros i; simpl.
  - now rewrite Z.add_0_r.
  - rewrite Hl. simpl. rewrite IH. f_equal. lia.
Qed.

Lemma cfg_select_scan_absent (ls : list string) (i d : Z) :
  Forall (fun l => containsb cfg_select_token l = false) ls ->
  cfg_select_scan i false d ls = (-1)%Z.
Proof.
  intros H. rewrite <- (app_nil_r ls), cfg_select_scan_outside by exact H.
  reflexivity.
Qed.

(** Inside the block: the scan stops at the first line where the running
    depth drops to zero or below. *)
Lemma cfg_select_scan_inside (body post : list string) (cls : string) (i d : Z) :
  (forall k, (1 <= k <= length body)%nat -> (0 < d + sum_net (firstn k body))%Z) ->
  (d + sum_net body + net cls <= 0)%Z ->
  cfg_select_scan i true d (body ++ cls :: post) = (i + Z.of_nat (length body))%Z.
Proof.
  revert i d. induction body as [|l body IH]; intros i d Hpos Hend;
    cbn [app cfg_select_scan]; rewrite andb_false_r.
  - fold (net cls). cbn [sum_net fold_right] in Hend.
    replace (d + net cls <=? 0)%Z with true by (symmetry; apply Z.leb_le; lia).
    simpl. lia.
  - fold (net l). assert (H1 : (0 < d + net l)%Z).
    { specialize (Hpos 1%nat ltac:(simpl; lia)). simpl in Hpos. lia. }
    replace (d + net l <=? 0)%Z with false by (symmetry; apply Z.leb_gt; lia).
    rewrite IH.
    + simpl length. lia.
    + intros k Hk. specialize (Hpos (S k) ltac:(simpl; lia)). simpl in Hpos. lia.
    + simpl in Hend. lia.
Qed.

Lemma alloc_emit_past (ls : list string) (i idx : Z) :
  (idx < i)%Z -> alloc_emit i idx ls = ls.
Proof.
  revert i. induction ls as [|l ls IH]; intros i H; simpl; [reflexivity|].
  replace (i =? idx)%Z with false by (symmetry; apply Z.eqb_neq; lia).
  simpl. rewrite IH by lia. reflexivity.
Qed.

Lemma alloc_emit_at (ls1 rest : list string) (l : string) (i : Z) :
  alloc_emit i (i + Z.of_nat (length ls1)) (ls1 ++ l :: rest)
  = ls1 ++ sabos_alloc_lines ++ l :: rest.
Proof.
  revert i. induction ls1 as [|x ls1 IH]; intros i; cbn [app alloc_emit].
  - rewrite Z.add_0_r, Z.eqb_refl, alloc_emit_past by lia. reflexivity.
  - replace (i =? i + Z.of_nat (length (x :: ls1)))%Z with false
      by (symmetry; apply Z.eqb_neq; simpl length; lia).
    cbn [app]. f_equal.
    replace (i + Z.of_nat (length (x :: ls1)))%Z
      with (i + 1 + Z.of_nat (length ls1))%Z by (simpl length; lia).
    apply IH.
Qed.

Lemma alloc_emit_cases (ls : list string) (i idx : Z) :
  alloc_emit i idx ls = ls \/
  exists pre post, alloc_emit i idx ls = pre ++ sabos_alloc_lines ++ post.
Proof.
  revert i. induction ls as [|l ls IH]; intros i; simpl; [now left|].
  destruct (i =? idx)%Z.
  - right. now exists [], (l :: alloc_emit (i + 1) idx ls).
  - destruct (IH (i + 1)%Z) as [-> | (pre & post & ->)]; [now left|].
    right. now exists (l :: pre), post.
Qed.

Lemma insert_before_marks (target_line insertion : string) :
  containsb sabos_target insertion = true ->
  marks (fun c => insert_before_line c target_line insertion).
Proof.
  intros Hi c. destruct (insert_before_line_cases c target_line insertion) as [H|H];
    [now left | right; eapply containsb_trans; eassumption].
Qed.

Lemma insert_after_marks (target_line insertion : string) :
  containsb sabos_target insertion = true ->
  marks (fun c => insert_after_line c target_line insertion).
Proof.
  intros Hi c. destruct (insert_after_line_cases c target_line insertion) as [H|H];
    [now left | right; eapply containsb_trans; eassumption].
Qed.

Lemma patch_alloc_mod_marks : marks patch_alloc_mod.
Proof.
  intros c. unfold patch_alloc_mod.
  destruct (cfg_select_scan 0 false 0 (split_nl c) <? 0)%Z; [now left|].
  destruct (alloc_emit_cases (split_nl c) 0 (cfg_select_scan 0 false 0 (split_nl c)))
    as [-> | (pre & post & ->)].
  - left. apply join_split_nl.
  - right. eapply containsb_trans with (b := hd EmptyString sabos_alloc_lines);
      [reflexivity|].
    apply join_nl_has_member.
Qed.

Lemma patch_thread_local_mod_marks : marks patch_thread_local_mod.
Proof.
  intros c. unfold patch_thread_local_mod.
  set (t1 := "        target_os = " +:+ quoted "vexos" +:+ ",").
  set (t2 := "            target_os = " +:+ quoted "vexos" +:+ ",").
  destruct (insert_after_marks t1 ("        " +:+ sabos_target +:+ ",")
              eq_refl c) as [E1 | E1];
  destruct (insert_after_marks t2 ("            " +:+ sabos_target +:+ ",")
              eq_refl (insert_after_line c t1 ("        " +:+ sabos_target +:+ ",")))
    as [E2 | E2]; cbv beta in *.
  - left. now rewrite E2, E1.
  - now right.
  - right. now rewrite E2.
  - now right.
Qed.

Lemma patches_mark (rel marker : string) (f : string -> string) :
  In (rel, marker, f) patches -> marker = sabos_target /\ marks f.
Proof.
  simpl. intros H.
  repeat destruct H as [H | H]; try contradiction; injection H as <- <- <-;
    split; try reflexivity.
  all: first [ apply patch_alloc_mod_marks | apply patch_thread_local_mod_marks
             | apply insert_before_marks; reflexivity
             | apply insert_after_marks; reflexivity ].
Qed.

(** ** [patch_file] *)

Lemma fs_lookup_update_same (p c : string) (fs : list (string * string)) :
  fs_lookup p (fs_update p c fs) = Some c.
Proof.
  induction fs as [|[q c'] fs IH]; simpl.
  - now rewrite String.eqb_refl.
  - destruct (String.eqb p q) eqn:E; simpl.
    + now rewrite E.
    + now rewrite E.
Qed.

Lemma fs_lookup_update_other (p q c : string) (fs : list (string * string)) :
  q <> p -> fs_lookup q (fs_update p c fs) = fs_lookup q fs.
Proof.
  intros Hqp. induction fs as [|[r c'] fs IH]; simpl.
  - apply String.eqb_neq in Hqp. now rewrite Hqp.
  - destruct (String.eqb p r) eqn:E; simpl.
    + apply String.eqb_eq in E. subst r.
      apply String.eqb_neq in Hqp. now rewrite Hqp.
    + now rewrite IH.
Qed.

Lemma patch_file_present (p marker : string) (f : string -> string) (w : world)
      (c : string) :
  fs_lookup p (files w) = Some c ->
  patch_file p marker f w =
  if containsb marker c then
    (Ok SKIPPED, mk_world (files w) (stdout w ++ ["[SKIP] " +:+ rel_of p +:+ " already patched"])
                          (stderr w) (writes w))
  else if String.eqb (f c) c then
    (Ok NO_EFFECT, mk_world (files w)
                            (stdout w ++ ["[WARN] " +:+ rel_of p +:+ " patch had no effect!"])
                            (stderr w) (writes w))
  else
    (Ok PATCHED, mk_world (fs_update p (f c) (files w))
                          (stdout w ++ ["[PATCH] " +:+ rel_of p]) (stderr w)
                          (writes w ++ [p])).
Proof.
  intros H. unfold patch_file, bind, read_file. rewrite H.
  destruct (containsb marker c); [reflexivity|].
  destruct (String.eqb (f c) c); reflexivity.
Qed.

Lemma patch_file_absent (p marker : string) (f : string -> string) (w : world) :
  fs_lookup p (files w) = None ->
  patch_file p marker f w = (Raised (FileNotFoundError p), w).
Proof. intros H. unfold patch_file, bind, read_file. now rewrite H. Qed.

(** Claim C1, as the code does it: for every descriptor of the static table
    and every file content, a second [patch_file] leaves the same file
    contents (and performs no write); it reports SKIPPED when the first one
    reported SKIPPED or PATCHED, and reports NO_EFFECT again when the first
    one reported NO_EFFECT (anchor absent: the marker never gets in). *)
Theorem patch_file_twice (rel marker : string) (f : string -> string)
        (p : string) (w : world) (c : string) :
  In (rel, marker, f) patches ->
  fs_lookup p (files w) = Some c ->
  let '(r1, w1) := patch_file p marker f w in
  let '(r2, w2) := patch_file p marker f w1 in
  files w2 = files w1 /\ writes w2 = writes w1 /\
  (r1 = Ok SKIPPED \/ r1 = Ok PATCHED -> r2 = Ok SKIPPED) /\
  (r1 = Ok NO_EFFECT -> r2 = Ok NO_EFFECT).
Proof.
  intros Hin Hc. destruct (patches_mark rel marker f Hin) as [-> Hmarks].
  rewrite (patch_file_present p sabos_target f w c Hc).
  destruct (containsb sabos_target c) eqn:Hm; [|destruct (String.eqb (f c) c) eqn:Hf];
    cbv beta iota.
  - erewrite (patch_file_present p sabos_target f) by exact Hc.
    rewrite Hm. cbv beta iota. repeat split; auto; try (intros [H|H]; discriminate H); try (intros H; discriminate H).
  - erewrite (patch_file_present p sabos_target f) by exact Hc.
    rewrite Hm, Hf. cbv beta iota. repeat split; auto; try (intros [H|H]; discriminate H); try (intros H; discriminate H).
  - erewrite (patch_file_present p sabos_target f)
      by exact (fs_lookup_update_same p (f c) (files w)).
    assert (Hm' : containsb sabos_target (f c) = true).
    { destruct (Hmarks c) as [E|E]; [|exact E].
      rewrite E, String.eqb_refl in Hf. discriminate. }
    rewrite Hm'. cbv beta iota. repeat split; auto; try (intros [H|H]; discriminate H); try (intros H; discriminate H).
Qed.

(** Claim C1 as stated fails: on an empty [sys/pal/mod.rs] the anchor
    [    _ => {] is absent, both applications report NO_EFFECT and the second
    does not report SKIPPED. *)
Lemma patch_file_twice_not_skipped :
  let w := mk_world [("/std/sys/pal/mod.rs", EmptyString)] [] [] [] in
  let '(r1, w1) := patch_file "/std/sys/pal/mod.rs" sabos_target patch_pal_mod w in
  fst (patch_file "/std/sys/pal/mod.rs" sabos_target patch_pal_mod w1) = Ok NO_EFFECT /\
  fst (patch_file "/std/sys/pal/mod.rs" sabos_target patch_pal_mod w1) <> Ok SKIPPED.
Proof. vm_compute. split; [reflexivity | discriminate]. Qed.

Lemma patch_file_twice_witness :
  let w := mk_world [("/std/sys/pal/mod.rs", "    _ => {")] [] [] [] in
  let '(r1, w1) := patch_file "/std/sys/pal/mod.rs" sabos_target patch_pal_mod w in
  let '(r2, w2) := patch_file "/std/sys/pal/mod.rs" sabos_target patch_pal_mod w1 in
  files w2 = files w1 /\ writes w2 = writes w1 /\
  (r1 = Ok SKIPPED \/ r1 = Ok PATCHED -> r2 = Ok SKIPPED) /\
  (r1 = Ok NO_EFFECT -> r2 = Ok NO_EFFECT).
Proof.
  exact (patch_file_twice "sys/pal/mod.rs" sabos_target patch_pal_mod
           "/std/sys/pal/mod.rs" (mk_world [("/std/sys/pal/mod.rs", "    _ => {")] [] [] [])
           "    _ => {" (or_introl eq_refl) eq_refl).
Defined.

Ltac close_status :=
  let Hr := fresh "Hr" in
  intros Hr; first [ discriminate Hr | exfalso; now apply Hr
                   | split; reflexivity | reflexivity ].

(** Claim C6: [patch_file] writes only on the PATCHED path.  When it reports
    SKIPPED or NO_EFFECT, or when the read raises, the file contents and the
    write log are unchanged; PATCHED writes the path once; NO_EFFECT prints
    the [[WARN] ... patch had no effect!] line. *)
Theorem patch_file_writes_only_when_patched (p marker : string)
        (f : string -> string) (w : world) :
  let '(r, w') := patch_file p marker f w in
  (r <> Ok PATCHED -> files w' = files w /\ writes w' = writes w) /\
  (r = Ok PATCHED -> writes w' = writes w ++ [p]) /\
  (r = Ok NO_EFFECT ->
     stdout w' = stdout w ++ ["[WARN] " +:+ rel_of p +:+ " patch had no effect!"]).
Proof.
  destruct (fs_lookup p (files w)) as [c|] eqn:Hc.
  - rewrite (patch_file_present p marker f w c Hc).
    destruct (containsb marker c); [|destruct (String.eqb (f c) c)]; cbv beta iota;
      simpl; (split; [close_status | split; close_status]).
  - rewrite (patch_file_absent p marker f w Hc).
    split; [close_status | split; close_status].
Qed.

Lemma patch_file_writes_only_when_patched_witness :
  let w := mk_world [("/std/os/mod.rs", "pub mod xous;")] [] [] [] in
  let '(r, w') := patch_file "/std/os/mod.rs" sabos_target patch_os_mod w in
  (r <> Ok PATCHED -> files w' = files w /\ writes w' = writes w) /\
  (r = Ok PATCHED -> writes w' = writes w ++ ["/std/os/mod.rs"]) /\
  (r = Ok NO_EFFECT ->
     stdout w' = stdout w ++ ["[WARN] " +:+ rel_of "/std/os/mod.rs" +:+ " patch had no effect!"]).
Proof.
  exact (patch_file_writes_only_when_patched "/std/os/mod.rs" sabos_target patch_os_mod
           (mk_world [("/std/os/mod.rs", "pub mod xous;")] [] [] [])).
Defined.

(** ** [main] of the patch tool *)











(** ** Anchor strategies *)

(** Claim C4: when some line contains the needle, [insert_before_line]
    (resp. [insert_after_line]) inserts the insertion as one new line just
    before (resp. after) the first such line and copies every other line, in
    order and unchanged; later matching lines trigger nothing. *)
Theorem insert_line_first_match (content needle insertion : string) :
  Exists (fun line => containsb needle line = true) (split_nl content) ->
  exists pre line post,
    split_nl content = pre ++ line :: post /\
    Forall (fun l => containsb needle l = false) pre /\
    containsb needle line = true /\
    insert_before_line content needle insertion
      = join_nl (pre ++ insertion :: line :: post) /\
    insert_after_line content needle insertion
      = join_nl (pre ++ line :: insertion :: post).
Proof.
  intros H.
  destruct (first_match_split needle (split_nl content) H)
    as (pre & line & post & Hs & Hpre & Hline).
  exists pre, line, post. repeat split; try assumption.
  - unfold insert_before_line. rewrite Hs.
    now rewrite insert_before_loop_first.
  - unfold insert_after_line. rewrite Hs.
    now rewrite insert_after_loop_first.
Qed.

Lemma insert_line_first_match_witness :
  Exists (fun line => containsb "    _ => {" line = true) (split_nl two_anchor_text) /\
  exists pre line post,
    split_nl two_anchor_text = pre ++ line :: post /\
    Forall (fun l => containsb "    _ => {" l = false) pre /\
    containsb "    _ => {" line = true /\
    insert_before_line two_anchor_text "    _ => {" "X"
      = join_nl (pre ++ "X" :: line :: post) /\
    insert_after_line two_anchor_text "    _ => {" "X"
      = join_nl (pre ++ line :: "X" :: post).
Proof.
  assert (H : Exists (fun line => containsb "    _ => {" line = true)
                     (split_nl two_anchor_text)).
  { apply Exists_cons_tl, Exists_cons_hd. reflexivity. }
  split; [exact H | exact (insert_line_first_match two_anchor_text "    _ => {" "X" H)].
Defined.

(** Claim C5: with no line containing the needle, [insert_before_line] and
    [insert_after_line] return their input unchanged; with no line containing
    [cfg_select!], [patch_alloc_mod] returns its input unchanged. *)
Theorem anchor_absent_identity :
  (forall content needle insertion,
     Forall (fun line => containsb needle line = false) (split_nl content) ->
     insert_before_line content needle insertion = content /\
     insert_after_line content needle insertion = content) /\
  (forall content,
     Forall (fun line => containsb cfg_select_token line = false) (split_nl content) ->
     patch_alloc_mod content = content).
Proof.
  split.
  - intros content needle insertion H. unfold insert_before_line, insert_after_line.
    rewrite insert_before_loop_absent, insert_after_loop_absent by exact H.
    split; apply join_split_nl.
  - intros content H. unfold patch_alloc_mod.
    now rewrite cfg_select_scan_absent by exact H.
Qed.

Lemma anchor_absent_identity_witness :
  Forall (fun line => containsb "zz" line = false) (split_nl two_anchor_text) /\
  insert_before_line two_anchor_text "zz" "X" = two_anchor_text /\
  insert_after_line two_anchor_text "zz" "X" = two_anchor_text /\
  Forall (fun line => containsb cfg_select_token line = false) (split_nl two_anchor_text) /\
  patch_alloc_mod two_anchor_text = two_anchor_text.
Proof.
  assert (H1 : Forall (fun line => containsb "zz" line = false) (split_nl two_anchor_text))
    by (repeat constructor).
  assert (H2 : Forall (fun line => containsb cfg_select_token line = false)
                      (split_nl two_anchor_text)) by (repeat constructor).
  destruct anchor_absent_identity as [A B].
  destruct (A two_anchor_text "zz" "X" H1) as [E1 E2].
  exact (conj H1 (conj E1 (conj E2 (conj H2 (B two_anchor_text H2))))).
Defined.

Lemma cfg_select_scan_enter (l : string) (rest : list string) (i d : Z) :
  containsb cfg_select_token l = true ->
  cfg_select_scan i false d (l :: rest) = cfg_select_scan i true 0 (l :: rest).
Proof. intros H. cbn [cfg_select_scan]. now rewrite H, andb_false_r. Qed.

Lemma prefixes_positive_of_check (L : list string) :
  forallb (fun k => (0 <? sum_net (firstn k L))%Z) (seq 1 (length L)) = true ->
  forall k, (1 <= k <= length L)%nat -> (0 < sum_net (firstn k L))%Z.
Proof.
  intros H k Hk. rewrite forallb_forall in H.
  apply Z.ltb_lt, H, in_seq. lia.
Qed.

(** Claim C3: the scanner starts a depth counter at zero on the first line
    containing [cfg_select!], adds [count("{") - count("}")] of that line and
    of each following line, and picks the first line where the depth is
    [<= 0] after the update.  So when the lines are [pre], the opening line,
    a body and a line [cls], where [pre] has no [cfg_select!], every running
    depth from the opening line through the body stays positive (nested
    blocks inside the body open and close) and [cls] brings it to [<= 0],
    the scanner selects [cls] (index [length pre + 1 + length body]) and
    [patch_alloc_mod] inserts the sabos branch just before [cls]. *)
Theorem patch_alloc_mod_closing_line (content : string)
        (pre body post : list string) (opn cls : string) :
  split_nl content = pre ++ opn :: body ++ cls :: post ->
  Forall (fun l => containsb cfg_select_token l = false) pre ->
  containsb cfg_select_token opn = true ->
  (forall k, (1 <= k <= length (opn :: body))%nat ->
     (0 < sum_net (firstn k (opn :: body)))%Z) ->
  (sum_net (opn :: body) + net cls <= 0)%Z ->
  cfg_select_scan 0 false 0 (split_nl content)
    = Z.of_nat (length pre + length (opn :: body)) /\
  patch_alloc_mod content
    = join_nl (pre ++ opn :: body ++ sabos_alloc_lines ++ cls :: post).
Proof.
  intros Hs Hpre Hopn Hpos Hend.
  assert (Hscan : cfg_select_scan 0 false 0 (split_nl content)
                  = Z.of_nat (length pre + length (opn :: body))).
  { rewrite Hs, cfg_select_scan_outside by exact Hpre.
    rewrite cfg_select_scan_enter by exact Hopn.
    change (opn :: body ++ cls :: post) with ((opn :: body) ++ cls :: post).
    rewrite cfg_select_scan_inside.
    - lia.
    - intros k Hk. rewrite Z.add_0_l. now apply Hpos.
    - lia. }
  split; [exact Hscan|].
  unfold patch_alloc_mod. rewrite Hscan.
  replace (Z.of_nat (length pre + length (opn :: body)) <? 0)%Z with false
    by (symmetry; apply Z.ltb_ge; lia).
  rewrite Hs.
  replace (pre ++ opn :: body ++ cls :: post)
    with ((pre ++ opn :: body) ++ cls :: post) by (now rewrite <- app_assoc).
  replace (Z.of_nat (length pre + length (opn :: body)))
    with (0 + Z.of_nat (length (pre ++ opn :: body)))%Z
    by (rewrite length_app; lia).
  rewrite alloc_emit_at. now rewrite <- app_assoc.
Qed.

Lemma patch_alloc_mod_closing_line_witness :
  cfg_select_scan 0 false 0 (split_nl nested_alloc_text) = 8%Z /\
  patch_alloc_mod nested_alloc_text
    = join_nl (nested_alloc_pre ++ "cfg_select! {" :: nested_alloc_body
               ++ sabos_alloc_lines ++ "}" :: [EmptyString]).
Proof.
  refine (patch_alloc_mod_closing_line nested_alloc_text nested_alloc_pre
            nested_alloc_body [EmptyString] "cfg_select! {" "}" _ _ _ _ _).
  - vm_compute. reflexivity.
  - repeat constructor.
  - reflexivity.
  - apply prefixes_positive_of_check. vm_compute. reflexivity.
  - vm_compute. discriminate.
Defined.

(** ** Further properties of the patch tool *)

(** *** Joining and splitting lines *)

Lemma join_nl_cons (x : string) (rest : list string) :
  rest <> [] -> join_nl (x :: rest) = x +:+ nl_str +:+ join_nl rest.
Proof. destruct rest; [congruence | reflexivity]. Qed.

Lemma join_nl_app (l1 l2 : list string) :
  l1 <> [] -> l2 <> [] -> join_nl (l1 ++ l2) = join_nl l1 +:+ nl_str +:+ join_nl l2.
Proof.
  intros H1 H2. induction l1 as [|x l1 IH]; [congruence|].
  destruct l1 as [|y l1].
  - change ([x] ++ l2) with (x :: l2). now apply join_nl_cons.
  - change ((x :: y :: l1) ++ l2) with (x :: ((y :: l1) ++ l2)).
    rewrite join_nl_cons by (simpl; discriminate).
    rewrite IH by discriminate.
    rewrite (join_nl_cons x (y :: l1)) by discriminate.
    now rewrite !append_assoc_str.
Qed.

(** Joining [pre ++ xs ++ post]: the text of [xs] sits between a prefix
    that is empty or ends in a newline and a suffix that is empty or starts
    with one. *)
Lemma join_around (pre post : list string) :
  exists a b, (a = EmptyString \/ exists a', a = a' +:+ nl_str) /\
              (b = EmptyString \/ exists b', b = nl_str +:+ b') /\
              forall xs, xs <> [] -> join_nl (pre ++ xs ++ post) = a +:+ join_nl xs +:+ b.
Proof.
  assert (Hb : exists b, (b = EmptyString \/ exists b', b = nl_str +:+ b') /\
                 forall xs, xs <> [] -> join_nl (xs ++ post) = join_nl xs +:+ b).
  { destruct post as [|q post].
    - exists EmptyString. split; [now left|].
      intros xs _. now rewrite app_nil_r, append_empty_r.
    - exists (nl_str +:+ join_nl (q :: post)). split; [right; now eexists|].
      intros xs Hxs. now apply join_nl_app. }
  destruct Hb as (b & Hb & Hjoin).
  destruct pre as [|p pre].
  - exists EmptyString, b. split; [now left|]. split; [exact Hb|].
    intros xs Hxs. simpl. now apply Hjoin.
  - exists (join_nl (p :: pre) +:+ nl_str), b. split; [right; now eexists|].
    split; [exact Hb|].
    intros xs Hxs.
    rewrite join_nl_app by (try discriminate; destruct xs; simpl; congruence).
    rewrite Hjoin by exact Hxs. now rewrite !append_assoc_str.
Qed.

Lemma containsb_nl_cons (c : ascii) (s : string) :
  containsb nl_str (String c s) = (Ascii.eqb nl c || containsb nl_str s).
Proof. unfold nl_str. cbn [containsb prefixb]. now rewrite andb_true_r. Qed.

Lemma split_nl_no_nl (l : string) : containsb nl_str l = false -> split_nl l = [l].
Proof.
  induction l as [|c l IH]; intros H; [reflexivity|].
  rewrite containsb_nl_cons, orb_false_iff in H. destruct H as [Hc Hl].
  rewrite Ascii.eqb_sym in Hc.
  cbn [split_nl]. rewrite Hc, (IH Hl). reflexivity.
Qed.

Lemma split_nl_app_nl (l s : string) :
  containsb nl_str l = false -> split_nl (l +:+ nl_str +:+ s) = l :: split_nl s.
Proof.
  induction l as [|c l IH]; intros H; [reflexivity|].
  rewrite containsb_nl_cons, orb_false_iff in H. destruct H as [Hc Hl].
  rewrite Ascii.eqb_sym in Hc.
  cbn [String.append split_nl]. rewrite Hc, (IH Hl). reflexivity.
Qed.

Lemma split_nl_join (ls : list string) :
  ls <> [] -> Forall (fun l => containsb nl_str l = false) ls -> split_nl (join_nl ls) = ls.
Proof.
  induction ls as [|l ls IH]; intros Hne H; [congruence|].
  inversion H as [|? ? Hl Hls]; subst.
  destruct ls as [|l' ls].
  - now apply split_nl_no_nl.
  - rewrite join_nl_cons by discriminate. rewrite split_nl_app_nl by exact Hl.
    f_equal. apply IH; [discriminate | exact Hls].
Qed.

Lemma split_nl_lines (s : string) :
  Forall (fun l => containsb nl_str l = false) (split_nl s).
Proof.
  induction s as [|c s IH].
  - constructor; [reflexivity | constructor].
  - cbn [split_nl]. destruct (Ascii.eqb c nl) eqn:Ec.
    + constructor; [reflexivity | exact IH].
    + destruct (split_nl s) as [|p ps] eqn:Hs; [now destruct (split_nl_not_nil s)|].
      inversion IH as [|? ? Hp Hps]; subst. constructor; [|exact Hps].
      rewrite containsb_nl_cons, Hp, orb_false_r, Ascii.eqb_sym. exact Ec.
Qed.

Lemma existsb_false_Forall {A} (f : A -> bool) (l : list A) :
  existsb f l = false -> Forall (fun x => f x = false) l.
Proof.
  induction l as [|x l IH]; simpl; intros H; constructor;
    apply orb_false_iff in H; [apply H | apply IH, H].
Qed.

(** *** Subsequences *)

Lemma Subseq_refl (s : string) : Subseq s s.
Proof. induction s; constructor; auto. Qed.

Lemma Subseq_tail (a : ascii) (s t : string) : Subseq (String a s) t -> Subseq s t.
Proof.
  intros H. remember (String a s) as u eqn:Eu.
  induction H as [t|a0 s0 t0 H IH|a0 s0 t0 H IH].
  - discriminate.
  - injection Eu as -> ->. now apply sub_skip.
  - apply sub_skip. now apply IH.
Qed.

Lemma Subseq_trans (a b c : string) : Subseq a b -> Subseq b c -> Subseq a c.
Proof.
  intros H1 H2. revert a H1.
  induction H2 as [t|x s t H IH|x s t H IH]; intros a H1.
  - inversion H1; subst. constructor.
  - inversion H1; subst; [constructor | apply sub_take; auto | apply sub_skip; auto].
  - apply sub_skip. auto.
Qed.

Lemma Subseq_insert (s x t : string) : Subseq (s +:+ t) (s +:+ x +:+ t).
Proof.
  induction s as [|c s IH]; simpl.
  - induction x as [|c x IH]; simpl; [apply Subseq_refl | now apply sub_skip].
  - now apply sub_take.
Qed.

Lemma is_subseq_spec (s t : string) : is_subseq s t = true <-> Subseq s t.
Proof.
  revert s; induction t as [|b t IH]; intros [|a s].
  - split; [constructor | reflexivity].
  - split; [discriminate | intros H; inversion H].
  - split; [constructor | reflexivity].
  - cbn [is_subseq]. destruct (Ascii.eqb a b) eqn:E.
    + apply Ascii.eqb_eq in E. subst b. rewrite IH. split; [apply sub_take|].
      intros H. inversion H; subst; [assumption | eapply Subseq_tail; eassumption].
    + rewrite IH. split; [apply sub_skip|].
      intros H. inversion H; subst; [now rewrite Ascii.eqb_refl in E | assumption].
Qed.

Lemma insert_before_line_sub (c t ins : string) : Subseq c (insert_before_line c t ins).
Proof.
  unfold insert_before_line.
  destruct (existsb (containsb t) (split_nl c)) eqn:E.
  - apply existsb_exists in E. destruct E as (x & Hx & Hxt).
    assert (Hex : Exists (fun l => containsb t l = true) (split_nl c))
      by (apply Exists_exists; now exists x).
    destruct (first_match_split t (split_nl c) Hex) as (pre & line & post & Hs & Hpre & Hline).
    rewrite Hs, insert_before_loop_first by assumption.
    destruct (join_around pre post) as (a & b & _ & _ & J).
    rewrite <- (join_split_nl c) at 1. rewrite Hs.
    specialize (J [line]) as J1. specialize (J [ins; line]) as J2.
    cbn [app] in J1, J2. rewrite J1, J2 by discriminate.
    change (join_nl [ins; line]) with (ins +:+ nl_str +:+ line).
    change (join_nl [line]) with line.
    rewrite !append_assoc_str, <- (append_assoc_str ins nl_str). apply Subseq_insert.
  - rewrite insert_before_loop_absent by exact (existsb_false_Forall _ _ E).
    rewrite join_split_nl. apply Subseq_refl.
Qed.

Lemma insert_after_line_sub (c t ins : string) : Subseq c (insert_after_line c t ins).
Proof.
  unfold insert_after_line.
  destruct (existsb (containsb t) (split_nl c)) eqn:E.
  - apply existsb_exists in E. destruct E as (x & Hx & Hxt).
    assert (Hex : Exists (fun l => containsb t l = true) (split_nl c))
      by (apply Exists_exists; now exists x).
    destruct (first_match_split t (split_nl c) Hex) as (pre & line & post & Hs & Hpre & Hline).
    rewrite Hs, insert_after_loop_first by assumption.
    destruct (join_around pre post) as (a & b & _ & _ & J).
    rewrite <- (join_split_nl c) at 1. rewrite Hs.
    specialize (J [line]) as J1. specialize (J [line; ins]) as J2.
    cbn [app] in J1, J2. rewrite J1, J2 by discriminate.
    change (join_nl [line; ins]) with (line +:+ nl_str +:+ ins).
    change (join_nl [line]) with line.
    replace (a +:+ line +:+ b) with ((a +:+ line) +:+ b) by apply append_assoc_str.
    replace (a +:+ (line +:+ nl_str +:+ ins) +:+ b)
      with ((a +:+ line) +:+ (nl_str +:+ ins) +:+ b) by (now rewrite !append_assoc_str).
    apply Subseq_insert.
  - rewrite insert_after_loop_absent by exact (existsb_false_Forall _ _ E).
    rewrite join_split_nl. apply Subseq_refl.
Qed.

(** The second loop of [patch_alloc_mod] either emits the lines unchanged
    or puts the three sabos lines before exactly one of them. *)
Lemma alloc_emit_split (ls : list string) (i idx : Z) :
  alloc_emit i idx ls = ls \/
  exists pre l post, ls = pre ++ l :: post /\
                     alloc_emit i idx ls = pre ++ sabos_alloc_lines ++ l :: post.
Proof.
  revert i. induction ls as [|l ls IH]; intros i; [now left|].
  cbn [alloc_emit]. destruct (i =? idx)%Z eqn:E.
  - apply Z.eqb_eq in E. subst idx. right. exists [], l, ls.
    rewrite alloc_emit_past by lia. split; reflexivity.
  - cbn [app]. destruct (IH (i + 1)%Z) as [-> | (pre & l' & post & -> & ->)]; [now left|].
    right. exists (l :: pre), l', post. split; reflexivity.
Qed.

Lemma patch_alloc_mod_cases (content : string) :
  patch_alloc_mod content = content \/
  exists pre l post, split_nl content = pre ++ l :: post /\
    patch_alloc_mod content = join_nl (pre ++ sabos_alloc_lines ++ l :: post).
Proof.
  unfold patch_alloc_mod.
  destruct (cfg_select_scan 0 false 0 (split_nl content) <? 0)%Z; [now left|].
  destruct (alloc_emit_split (split_nl content) 0
              (cfg_select_scan 0 false 0 (split_nl content)))
    as [-> | (pre & l & post & Hs & ->)].
  - left. apply join_split_nl.
  - right. now exists pre, l, post.
Qed.

Lemma patch_alloc_mod_sub (c : string) : Subseq c (patch_alloc_mod c).
Proof.
  destruct (patch_alloc_mod_cases c) as [-> | (pre & l & post & Hs & ->)];
    [apply Subseq_refl|].
  destruct (join_around pre post) as (a & b & _ & _ & J).
  rewrite <- (join_split_nl c) at 1. rewrite Hs.
  specialize (J [l]) as J1. specialize (J (sabos_alloc_lines ++ [l])) as J2.
  cbn [app] in J1. rewrite J1 by discriminate.
  replace (pre ++ sabos_alloc_lines ++ l :: post)
    with (pre ++ (sabos_alloc_lines ++ [l]) ++ post) by (now rewrite <- app_assoc).
  rewrite J2 by (destruct sabos_alloc_lines; discriminate).
  rewrite join_nl_app by discriminate.
  change (join_nl [l]) with l.
  rewrite !append_assoc_str, <- (append_assoc_str (join_nl sabos_alloc_lines) nl_str).
  apply Subseq_insert.
Qed.

(** *** The scanner when the block does not close *)

Lemma cfg_select_scan_open (ls : list string) (i d : Z) :
  (forall k, (1 <= k <= length ls)%nat -> (0 < d + sum_net (firstn k ls))%Z) ->
  cfg_select_scan i true d ls = (-1)%Z.
Proof.
  revert i d. induction ls as [|l ls IH]; intros i d Hpos; [reflexivity|].
  assert (H1 : (0 < d + net l)%Z).
  { specialize (Hpos 1%nat ltac:(simpl; lia)). simpl in Hpos. lia. }
  cbn [cfg_select_scan]. rewrite andb_false_r. fold (net l).
  replace (d + net l <=? 0)%Z with false by (symmetry; apply Z.leb_gt; lia).
  apply IH. intros k Hk.
  specialize (Hpos (S k) ltac:(simpl; lia)). cbn [firstn sum_net fold_right] in Hpos.
  unfold sum_net in *. lia.
Qed.

(** *** Paths *)

Lemma containsb_single_In (c : ascii) (s : string) :
  containsb (String c EmptyString) s = true <-> In c (list_ascii_of_string s).
Proof.
  induction s as [|d s IH]; [simpl; split; [discriminate | contradiction]|].
  cbn [containsb prefixb list_ascii_of_string In].
  rewrite andb_true_r, orb_true_iff, Ascii.eqb_eq, IH.
  split; intros [H|H]; auto.
Qed.

Lemma list_ascii_of_string_app (s t : string) :
  list_ascii_of_string (s +:+ t) = list_ascii_of_string s ++ list_ascii_of_string t.
Proof. induction s as [|c s IH]; simpl; [reflexivity | now rewrite IH]. Qed.

Lemma string_of_list_ascii_app (l1 l2 : list ascii) :
  string_of_list_ascii (l1 ++ l2) = string_of_list_ascii l1 +:+ string_of_list_ascii l2.
Proof. induction l1 as [|c l1 IH]; simpl; [reflexivity | now rewrite IH]. Qed.

Lemma basename_app_slash (s b : string) :
  containsb slash_str b = false -> basename (s +:+ slash_str +:+ b) = b.
Proof.
  intros Hb. induction s as [|c s IH].
  - change (EmptyString +:+ slash_str +:+ b) with (String slash b).
    cbn [basename]. rewrite Hb, Ascii.eqb_refl. reflexivity.
  - cbn [String.append basename].
    replace (containsb slash_str (s +:+ slash_str +:+ b)) with true
      by (symmetry; apply containsb_spec; now exists s, b).
    exact IH.
Qed.

Lemma dir_head_app_slash (s b : string) :
  containsb slash_str b = false -> dir_head (s +:+ slash_str +:+ b) = s +:+ slash_str.
Proof.
  intros Hb. induction s as [|c s IH].
  - change (EmptyString +:+ slash_str +:+ b) with (String slash b).
    cbn [dir_head]. rewrite Hb, Ascii.eqb_refl. reflexivity.
  - cbn [String.append dir_head].
    replace (containsb slash_str (s +:+ slash_str +:+ b)) with true
      by (symmetry; apply containsb_spec; now exists s, b).
    now rewrite IH.
Qed.

Lemma rstrip_slash_app (x a : string) :
  a <> EmptyString -> containsb slash_str a = false ->
  rstrip_slash (x +:+ slash_str +:+ a +:+ slash_str) = x +:+ slash_str +:+ a.
Proof.
  intros Hne Ha. unfold rstrip_slash.
  rewrite !list_ascii_of_string_app.
  change (list_ascii_of_string slash_str) with [slash].
  set (lx := list_ascii_of_string x). set (la := list_ascii_of_string a).
  replace (rev (lx ++ [slash] ++ la ++ [slash]))
    with (slash :: rev la ++ slash :: rev lx)
    by (rewrite !rev_app_distr; simpl; now rewrite <- !app_assoc).
  destruct (rev la) as [|c r] eqn:Hr.
  - exfalso. apply Hne. rewrite <- (string_of_list_ascii_of_string a).
    fold la. rewrite <- (rev_involutive la), Hr. reflexivity.
  - assert (Hc : Ascii.eqb c slash = false).
    { apply Ascii.eqb_neq. intros ->.
      assert (Hin : In slash la) by (apply in_rev; rewrite Hr; now left).
      apply containsb_single_In in Hin. unfold slash_str in Ha. congruence. }
    cbn -[Ascii.eqb]. rewrite Ascii.eqb_refl, Hc.
    change (c :: r ++ slash :: rev lx) with ((c :: r) ++ slash :: rev lx).
    rewrite <- Hr, rev_app_distr, rev_involutive. cbn [rev]. rewrite rev_involutive.
    rewrite !string_of_list_ascii_app.
    unfold lx, la. rewrite !string_of_list_ascii_of_string, append_assoc_str.
    reflexivity.
Qed.

Lemma patch_thread_local_mod_sub (c : string) : Subseq c (patch_thread_local_mod c).
Proof.
  unfold patch_thread_local_mod. cbv zeta.
  eapply Subseq_trans; [|apply insert_after_line_sub]. apply insert_after_line_sub.
Qed.


(** *** Running the table *)

Lemma append_cancel_l (a b c : string) : a +:+ b = a +:+ c -> b = c.
Proof. induction a as [|x a IH]; simpl; [auto | intros H; injection H; auto]. Qed.

Lemma path_join_inj (a b c : string) :
  prefixb slash_str b = false -> prefixb slash_str c = false ->
  path_join a b = path_join a c -> b = c.
Proof.
  intros Hb Hc. unfold path_join. rewrite Hb, Hc.
  destruct (String.eqb a EmptyString || String.eqb (basename a) EmptyString).
  - apply append_cancel_l.
  - intros H. apply append_cancel_l, append_cancel_l in H. exact H.
Qed.

Lemma NoDup_map_path_join (a : string) (l : list string) :
  Forall (fun b => prefixb slash_str b = false) l -> NoDup l -> NoDup (map (path_join a) l).
Proof.
  induction l as [|b l IH]; intros Hs Hnd; simpl; [constructor|].
  inversion Hs as [|? ? Hb Hl]; subst. inversion Hnd as [|? ? Hnin Hnd']; subst.
  constructor; [|now apply IH].
  intros Hin. apply in_map_iff in Hin. destruct Hin as (b' & E & Hb').
  assert (b' = b) as ->.
  { apply (path_join_inj a b' b); [|exact Hb|exact E].
    rewrite Forall_forall in Hl. now apply Hl. }
  contradiction.
Qed.

Lemma patches_paths_nodup (std_src : string) :
  NoDup (map (fun d : string * string * (string -> string) =>
                path_join std_src (fst (fst d))) patches).
Proof.
  replace (map (fun d : string * string * (string -> string) =>
                  path_join std_src (fst (fst d))) patches)
    with (map (path_join std_src)
              (map (fun d : string * string * (string -> string) => fst (fst d)) patches))
    by (now rewrite map_map).
  apply NoDup_map_path_join; cbn [patches map fst].
  - repeat constructor.
  - repeat constructor; cbn [In]; intuition discriminate.
Qed.

Lemma patch_file_files (p m : string) (f : string -> string) (w : world) :
  files (snd (patch_file p m f w)) = files w \/
  exists c, files (snd (patch_file p m f w)) = fs_update p c (files w).
Proof.
  destruct (fs_lookup p (files w)) as [c|] eqn:Hc.
  - rewrite (patch_file_present p m f w c Hc).
    destruct (containsb m c); [now left|].
    destruct (String.eqb (f c) c); [now left | right; now eexists].
  - rewrite (patch_file_absent p m f w Hc). now left.
Qed.

Lemma apply_patches_other (std_src q : string)
      (T : list (string * string * (string -> string))) (w : world) :
  ~ In q (map (fun d : string * string * (string -> string) =>
                 path_join std_src (fst (fst d))) T) ->
  fs_lookup q (files (snd (apply_patches std_src T w))) = fs_lookup q (files w).
Proof.
  revert w. induction T as [|[[rel m] f] T IH]; intros w Hq; [reflexivity|].
  cbn [map fst] in Hq.
  assert (Hp : path_join std_src rel <> q) by (intros E; apply Hq; now left).
  assert (Hq' : ~ In q (map (fun d : string * string * (string -> string) =>
                               path_join std_src (fst (fst d))) T))
    by (intros H; apply Hq; now right).
  cbn [apply_patches]. unfold bind.
  pose proof (patch_file_files (path_join std_src rel) m f w) as Hf.
  destruct (patch_file (path_join std_src rel) m f w) as [[st|e] w1]; cbn [snd] in *.
  - rewrite IH by exact Hq'.
    destruct Hf as [-> | (c & ->)]; [reflexivity|].
    apply fs_lookup_update_other. congruence.
  - destruct Hf as [-> | (c & ->)]; [reflexivity|].
    apply fs_lookup_update_other. congruence.
Qed.

Lemma patch_file_after (p : string) (f : string -> string) (w wa : world) (st : status) :
  marks f -> patch_file p sabos_target f w = (Ok st, wa) ->
  exists c, fs_lookup p (files wa) = Some c /\ (containsb sabos_target c = true \/ f c = c).
Proof.
  intros Hm H.
  destruct (fs_lookup p (files w)) as [c|] eqn:Hc;
    [|rewrite (patch_file_absent p sabos_target f w Hc) in H; discriminate].
  rewrite (patch_file_present p sabos_target f w c Hc) in H.
  destruct (containsb sabos_target c) eqn:E1.
  - injection H as <- <-. exists c. cbn [files]. auto.
  - destruct (String.eqb (f c) c) eqn:E2.
    + injection H as <- <-. exists c. cbn [files]. split; [exact Hc|].
      right. now apply String.eqb_eq.
    + injection H as <- <-. exists (f c). cbn [files].
      rewrite fs_lookup_update_same. split; [reflexivity|].
      destruct (Hm c) as [E | E]; [|now left].
      rewrite E, String.eqb_refl in E2. discriminate.
Qed.

Lemma patch_file_stable (p : string) (f : string -> string) (v : world) (c : string) :
  fs_lookup p (files v) = Some c ->
  (containsb sabos_target c = true \/ f c = c) ->
  exists st v', patch_file p sabos_target f v = (Ok st, v') /\
                files v' = files v /\ writes v' = writes v.
Proof.
  intros Hc Hs. rewrite (patch_file_present p sabos_target f v c Hc).
  destruct (containsb sabos_target c) eqn:E1.
  - do 2 eexists. split; [reflexivity | split; reflexivity].
  - destruct Hs as [Hs | Hs]; [discriminate|].
    rewrite Hs, String.eqb_refl. do 2 eexists. split; [reflexivity | split; reflexivity].
Qed.

Lemma apply_patches_rerun (std_src : string)
      (T : list (string * string * (string -> string))) (w w1 v : world) :
  (forall rel m f, In (rel, m, f) T -> m = sabos_target /\ marks f) ->
  NoDup (map (fun d : string * string * (string -> string) =>
                path_join std_src (fst (fst d))) T) ->
  apply_patches std_src T w = (Ok tt, w1) ->
  files v = files w1 ->
  exists v', apply_patches std_src T v = (Ok tt, v') /\
             files v' = files v /\ writes v' = writes v.
Proof.
  revert w w1 v. induction T as [|[[rel m] f] T IH]; intros w w1 v HT Hnd Hrun Hv.
  - exists v. split; [reflexivity | split; reflexivity].
  - cbn [map fst] in Hnd. inversion Hnd as [|? ? Hnin Hnd']; subst.
    destruct (HT rel m f (or_introl eq_refl)) as [-> Hm].
    cbn [apply_patches] in Hrun. unfold bind in Hrun.
    destruct (patch_file (path_join std_src rel) sabos_target f w) as [[st|e] wa] eqn:E1;
      [|discriminate].
    destruct (patch_file_after _ f w wa st Hm E1) as (c & Hc & Hcs).
    assert (Hc1 : fs_lookup (path_join std_src rel) (files v) = Some c).
    { rewrite Hv, <- Hc.
      replace w1 with (snd (apply_patches std_src T wa)) by (now rewrite Hrun).
      now apply apply_patches_other. }
    destruct (patch_file_stable _ f v c Hc1 Hcs) as (st2 & va & E2 & Hf & Hw).
    destruct (IH wa w1 va) as (v' & E3 & Hf' & Hw').
    + intros rel' m' f' Hin. apply (HT rel' m' f'). now right.
    + exact Hnd'.
    + exact Hrun.
    + congruence.
    + exists v'. cbn [apply_patches]. unfold bind. rewrite E2, E3.
      split; [reflexivity | split; congruence].
Qed.


(** *** Extra properties of the patch tool *)





(** [patch_alloc_mod] either returns its input or puts the three lines of
    the sabos branch, each ended by a newline, in at the start of a line of
    the input; nothing of the input is removed or changed. *)
Theorem patch_alloc_mod_splice (content : string) :
  patch_alloc_mod content = content \/
  exists a b, content = a +:+ b /\
    patch_alloc_mod content = a +:+ join_nl sabos_alloc_lines +:+ nl_str +:+ b /\
    (a = EmptyString \/ exists a', a = a' +:+ nl_str).
Proof.
  destruct (patch_alloc_mod_cases content) as [E | (pre & l & post & Hs & E)];
    [now left | right].
  destruct (join_around pre post) as (a & b & Ha & _ & J).
  specialize (J [l]) as J1. specialize (J (sabos_alloc_lines ++ [l])) as J2.
  cbn [app] in J1.
  exists a, (l +:+ b). split; [|split].
  - rewrite <- (join_split_nl content), Hs, J1 by discriminate. reflexivity.
  - rewrite E.
    replace (pre ++ sabos_alloc_lines ++ l :: post)
      with (pre ++ (sabos_alloc_lines ++ [l]) ++ post) by (now rewrite <- app_assoc).
    rewrite J2 by (destruct sabos_alloc_lines; discriminate).
    rewrite join_nl_app by discriminate.
    change (join_nl [l]) with l. now rewrite !append_assoc_str.
  - exact Ha.
Qed.

(** None of the nine patch functions of the table deletes or alters text:
    for every input, the input is a subsequence of the output. *)
Theorem patches_never_delete :
  Forall (fun d : string * string * (string -> string) =>
            forall content, is_subseq content (snd d content) = true) patches.
Proof.
  unfold patches. repeat constructor; intros content; cbn [snd]; apply is_subseq_spec.
  all: first [ apply patch_alloc_mod_sub | apply patch_thread_local_mod_sub
             | apply insert_before_line_sub | apply insert_after_line_sub ].
Qed.

(** [patch_thread_local_mod] when the first line holding the 8-space anchor
    [target_os = "vexos",] is a 12-space (guard block) line: the 8-space
    anchor is a substring of the 12-space one, so both sabos lines go after
    that same line, the 12-space one first, and the no_threads list gets
    nothing. *)
Theorem patch_thread_local_mod_guard_first (content line : string) (pre post : list string) :
  split_nl content = pre ++ line :: post ->
  Forall (fun l => containsb ("        target_os = " +:+ quoted "vexos" +:+ ",") l = false) pre ->
  containsb ("            target_os = " +:+ quoted "vexos" +:+ ",") line = true ->
  patch_thread_local_mod content =
  join_nl (pre ++ line :: ("            " +:+ sabos_target +:+ ",")
               :: ("        " +:+ sabos_target +:+ ",") :: post).
Proof.
  intros Hs Hpre Hline.
  assert (H812 : containsb ("        target_os = " +:+ quoted "vexos" +:+ ",")
                           ("            target_os = " +:+ quoted "vexos" +:+ ",") = true)
    by (vm_compute; reflexivity).
  unfold patch_thread_local_mod. cbv zeta.
  assert (E1 : insert_after_line content ("        target_os = " +:+ quoted "vexos" +:+ ",")
                 ("        " +:+ sabos_target +:+ ",")
               = join_nl (pre ++ line :: ("        " +:+ sabos_target +:+ ",") :: post)).
  { unfold insert_after_line. rewrite Hs.
    rewrite insert_after_loop_first; [reflexivity | exact Hpre |].
    eapply containsb_trans; eassumption. }
  rewrite E1. unfold insert_after_line.
  pose proof (split_nl_lines content) as Hnl. rewrite Hs in Hnl.
  apply Forall_app in Hnl. destruct Hnl as [Hnl_pre Hnl_rest].
  inversion Hnl_rest as [|? ? Hnl_line Hnl_post]; subst.
  rewrite split_nl_join.
  - rewrite insert_after_loop_first; [reflexivity | | exact Hline].
    rewrite Forall_forall in Hpre |- *. intros l Hl. unfold no_match.
    destruct (containsb ("            target_os = " +:+ quoted "vexos" +:+ ",") l) eqn:E;
      [|reflexivity].
    specialize (Hpre l Hl). rewrite (containsb_trans _ _ _ H812 E) in Hpre.
    discriminate.
  - destruct pre; discriminate.
  - apply Forall_app. split; [exact Hnl_pre|].
    constructor; [exact Hnl_line|]. constructor; [vm_compute; reflexivity|exact Hnl_post].
Qed.

Lemma patch_thread_local_mod_guard_first_witness :
  patch_thread_local_mod ("            target_os = " +:+ quoted "vexos" +:+ ",") =
  join_nl ([] ++ ("            target_os = " +:+ quoted "vexos" +:+ ",")
              :: ("            " +:+ sabos_target +:+ ",")
              :: ("        " +:+ sabos_target +:+ ",") :: []).
Proof.
  apply (patch_thread_local_mod_guard_first
           ("            target_os = " +:+ quoted "vexos" +:+ ",")
           ("            target_os = " +:+ quoted "vexos" +:+ ",") [] []).
  - vm_compute. reflexivity.
  - constructor.
  - vm_compute. reflexivity.
Defined.

(** [patch_alloc_mod] when the first line containing [cfg_select!] has no
    more [{] than [}] (the block's brace is on a later line): the depth is
    already [<= 0] after that line, so the sabos branch goes just before the
    [cfg_select!] line itself, outside the block. *)
Theorem patch_alloc_mod_brace_not_on_line (content l : string) (pre post : list string) :
  split_nl content = pre ++ l :: post ->
  Forall (fun x => containsb cfg_select_token x = false) pre ->
  containsb cfg_select_token l = true ->
  (net l <= 0)%Z ->
  patch_alloc_mod content = join_nl (pre ++ sabos_alloc_lines ++ l :: post).
Proof.
  intros Hs Hpre Hl Hn.
  assert (Hscan : cfg_select_scan 0 false 0 (split_nl content) = Z.of_nat (length pre)).
  { rewrite Hs, cfg_select_scan_outside by exact Hpre.
    rewrite cfg_select_scan_enter by exact Hl.
    cbn [cfg_select_scan]. rewrite andb_false_r. fold (net l).
    replace (0 + net l <=? 0)%Z with true by (symmetry; apply Z.leb_le; lia).
    lia. }
  unfold patch_alloc_mod. rewrite Hscan.
  replace (Z.of_nat (length pre) <? 0)%Z with false by (symmetry; apply Z.ltb_ge; lia).
  rewrite Hs.
  replace (Z.of_nat (length pre)) with (0 + Z.of_nat (length pre))%Z by lia.
  now rewrite alloc_emit_at.
Qed.

Lemma patch_alloc_mod_brace_not_on_line_witness :
  patch_alloc_mod (join_nl ["cfg_select!"; "{"; "}"]) =
  join_nl ([] ++ sabos_alloc_lines ++ "cfg_select!" :: ["{"; "}"]).
Proof.
  apply (patch_alloc_mod_brace_not_on_line (join_nl ["cfg_select!"; "{"; "}"])
           "cfg_select!" [] ["{"; "}"]).
  - vm_compute. reflexivity.
  - constructor.
  - vm_compute. reflexivity.
  - vm_compute. discriminate.
Defined.

(** [patch_alloc_mod] when the block opened on the first [cfg_select!] line
    never closes (every running depth from that line to the end of the text
    stays positive): the scan finds no line, [insert_idx] stays [-1] and the
    text is returned unchanged. *)
Theorem patch_alloc_mod_unclosed (content l : string) (pre post : list string) :
  split_nl content = pre ++ l :: post ->
  Forall (fun x => containsb cfg_select_token x = false) pre ->
  containsb cfg_select_token l = true ->
  (forall k, (1 <= k <= length (l :: post))%nat -> (0 < sum_net (firstn k (l :: post)))%Z) ->
  patch_alloc_mod content = content.
Proof.
  intros Hs Hpre Hl Hpos.
  unfold patch_alloc_mod.
  replace (cfg_select_scan 0 false 0 (split_nl content)) with (-1)%Z; [reflexivity|].
  rewrite Hs, cfg_select_scan_outside by exact Hpre.
  rewrite cfg_select_scan_enter by exact Hl.
  symmetry. apply cfg_select_scan_open. intros k Hk. rewrite Z.add_0_l. now apply Hpos.
Qed.

Lemma patch_alloc_mod_unclosed_witness :
  patch_alloc_mod "cfg_select! {" = "cfg_select! {".
Proof.
  apply (patch_alloc_mod_unclosed "cfg_select! {" "cfg_select! {" [] []).
  - reflexivity.
  - constructor.
  - vm_compute. reflexivity.
  - intros k Hk. replace k with 1%nat by (simpl in Hk; lia). vm_compute. reflexivity.
Defined.

(** The label [patch_file] prints is the last two path components: for a
    path [x/a/b] with [a] a nonempty component and [b] a component (no
    slash in either), [rel] is [a/b], whatever [x] is. *)
Theorem rel_of_last_two (x a b : string) :
  a <> EmptyString -> containsb slash_str a = false -> containsb slash_str b = false ->
  rel_of (x +:+ slash_str +:+ a +:+ slash_str +:+ b) = a +:+ slash_str +:+ b.
Proof.
  intros Hne Ha Hb. unfold rel_of, dirname.
  replace (x +:+ slash_str +:+ a +:+ slash_str +:+ b)
    with ((x +:+ slash_str +:+ a) +:+ slash_str +:+ b) by (now rewrite !append_assoc_str).
  rewrite (basename_app_slash (x +:+ slash_str +:+ a) b Hb),
    (dir_head_app_slash (x +:+ slash_str +:+ a) b Hb).
  rewrite !append_assoc_str.
  replace (String.eqb (x +:+ slash_str +:+ a +:+ slash_str) EmptyString) with false
    by (destruct x; reflexivity).
  replace (all_slashes (x +:+ slash_str +:+ a +:+ slash_str)) with false.
  - cbn [negb andb]. rewrite rstrip_slash_app by assumption.
    now rewrite basename_app_slash by exact Ha.
  - symmetry. unfold all_slashes. apply not_true_iff_false. intros H.
    rewrite forallb_forall in H.
    destruct a as [|c a']; [congruence|].
    assert (Hc : Ascii.eqb c slash = true).
    { apply H. rewrite !list_ascii_of_string_app. apply in_or_app. right.
      cbn [list_ascii_of_string app]. right. now left. }
    apply Ascii.eqb_eq in Hc. subst c.
    unfold slash_str in Ha. cbn [containsb prefixb] in Ha.
    rewrite Ascii.eqb_refl in Ha. discriminate.
Qed.

Lemma rel_of_last_two_witness :
  rel_of ("/std/sys" +:+ slash_str +:+ "pal" +:+ slash_str +:+ "mod.rs")
  = "pal" +:+ slash_str +:+ "mod.rs".
Proof.
  apply rel_of_last_two; [discriminate | reflexivity | reflexivity].
Defined.

(** Re-running the tool: after a run of [main] that ends normally, a second
    run with the same argument also ends normally, changes no file and opens
    no file for writing (each target reports SKIP, or WARN again). *)
Theorem main_rerun_no_write (argv0 std_src : string) (w : world) :
  fst (main argv0 [std_src] w) = Ok tt ->
  let w1 := snd (main argv0 [std_src] w) in
  fst (main argv0 [std_src] w1) = Ok tt /\
  files (snd (main argv0 [std_src] w1)) = files w1 /\
  writes (snd (main argv0 [std_src] w1)) = writes w1.
Proof.
  intros H. change (main argv0 [std_src]) with (apply_patches std_src patches) in *.
  cbv zeta.
  destruct (apply_patches std_src patches w) as [r w1] eqn:E. cbn [fst snd] in *. subst r.
  destruct (apply_patches_rerun std_src patches w w1 w1) as (v' & E2 & Hf & Hw).
  - intros rel m f Hin. now apply (patches_mark rel).
  - apply patches_paths_nodup.
  - exact E.
  - reflexivity.
  - rewrite E2. cbn [fst snd]. auto.
Qed.

Lemma main_rerun_no_write_witness :
  fst (main "p" ["/std"] (mk_world (all_targets "/std" "    _ => {") [] [] [])) = Ok tt /\
  let w1 := snd (main "p" ["/std"] (mk_world (all_targets "/std" "    _ => {") [] [] [])) in
  fst (main "p" ["/std"] w1) = Ok tt /\
  files (snd (main "p" ["/std"] w1)) = files w1 /\
  writes (snd (main "p" ["/std"] w1)) = writes w1.
Proof.
  assert (H : fst (main "p" ["/std"] (mk_world (all_targets "/std" "    _ => {") [] [] []))
              = Ok tt) by (vm_compute; reflexivity).
  split; [exact H | exact (main_rerun_no_write "p" "/std" _ H)].
Defined.





(** ** The syscall-number checker *)

Module CheckFacts.
Import CheckSyscallNumbers.

(** *** The regular expressions *)

Lemma lit_sound (s l r : list ascii) (u : unit) :
  lit s l = Some (u, r) -> l = s ++ r.
Proof.
  revert l. induction s as [|a s IH]; intros l H; simpl in H.
  - now injection H as _ ->.
  - destruct l as [|b l]; [discriminate|].
    destruct (Ascii.eqb a b) eqn:E; [|discriminate].
    apply Ascii.eqb_eq in E. subst b. simpl. f_equal. now apply IH.
Qed.

Lemma span_sound (cls : ascii -> bool) (l x r : list ascii) :
  span cls l = (x, r) -> l = x ++ r /\ Forall (fun c => cls c = true) x.
Proof.
  revert x r. induction l as [|c l IH]; intros x r H; simpl in H.
  - injection H as <- <-. split; [reflexivity | constructor].
  - destruct (cls c) eqn:E.
    + destruct (span cls l) as [x' r'] eqn:Hs. injection H as <- <-.
      destruct (IH x' r' eq_refl) as [-> Hf]. split; [reflexivity | now constructor].
    + injection H as <- <-. split; [reflexivity | constructor].
Qed.

Lemma star_sound (cls : ascii -> bool) (l x r : list ascii) :
  star cls l = Some (x, r) -> l = x ++ r /\ Forall (fun c => cls c = true) x.
Proof. unfold star. intros H. injection H as H. now apply span_sound. Qed.

Lemma plus_sound (cls : ascii -> bool) (l x r : list ascii) :
  plus cls l = Some (x, r) ->
  l = x ++ r /\ Forall (fun c => cls c = true) x /\ x <> [].
Proof.
  unfold plus. destruct (span cls l) as [[|c x'] r'] eqn:Hs; [discriminate|].
  intros H. injection H as <- <-.
  destruct (span_sound cls l (c :: x') r' Hs). repeat split; auto. discriminate.
Qed.

Lemma pbind_some {A B} (p : parser A) (k : A -> parser B) (l r : list ascii) (b : B) :
  pbind p k l = Some (b, r) ->
  exists a r1, p l = Some (a, r1) /\ k a r1 = Some (b, r).
Proof.
  unfold pbind. destruct (p l) as [[a r1]|]; [|discriminate].
  intros H. now exists a, r1.
Qed.

Lemma search_list_sound {A} (p : parser A) (l : list ascii) (a : A) :
  search_list p l = Some a -> exists pre suf r, l = pre ++ suf /\ p suf = Some (a, r).
Proof.
  induction l as [|c l IH]; simpl.
  - destruct (p []) as [[a' r]|] eqn:E; [|discriminate].
    intros H. injection H as <-. now exists [], [], r.
  - destruct (p (c :: l)) as [[a' r]|] eqn:E.
    + intros H. injection H as <-. now exists [], (c :: l), r.
    + intros H. destruct (IH H) as (pre & suf & r & -> & Hp).
      now exists (c :: pre), suf, r.
Qed.

Lemma decimal_value_nonneg (ds : list ascii) : (0 <= decimal_value ds)%Z.
Proof.
  unfold decimal_value.
  assert (G : forall acc, (0 <= acc)%Z ->
     (0 <= fold_left (fun acc d => (acc * 10 + Z.of_nat (code d - 48))%Z) ds acc)%Z).
  { induction ds as [|d ds IH]; intros acc H; simpl; [exact H|].
    apply IH. lia. }
  apply G. lia.
Qed.

(** Peel a chain of parser steps that succeeded into its pieces. *)
Ltac peel :=
  repeat match goal with
  | H : pbind _ _ _ = Some _ |- _ =>
      let a := fresh "a" in let r := fresh "r" in let Hp := fresh "Hp" in
      apply pbind_some in H; destruct H as (a & r & Hp & H); cbv beta in H
  | H : lits _ _ = Some _ |- _ => apply lit_sound in H
  | H : star _ _ = Some _ |- _ =>
      let E := fresh "E" in let F := fresh "F" in
      apply star_sound in H; destruct H as [E F]
  | H : plus _ _ = Some _ |- _ =>
      let E := fresh "E" in let F := fresh "F" in let N := fresh "N" in
      apply plus_sound in H; destruct H as (E & F & N)
  | H : pret _ _ = Some _ |- _ => unfold pret in H; injection H as <- <-
  | H : Some (_, _) = Some (_, _) |- _ => injection H as <- <-
  end.

Lemma u64_decl_at (lead : string) (l rest : list ascii) (name : string) (number : Z) :
  (lits lead ;~ name <~ sys_name ;; number <~ u64_decl_tail ;; pret (name, number)) l
    = Some ((name, number), rest) ->
  u64_decl lead l name number.
Proof.
  intros H. unfold sys_name, u64_decl_tail in H. peel. subst.
  exists []. do 7 eexists. split; [reflexivity|].
  repeat split; auto using decimal_value_nonneg.
  repeat (apply Forall_app; split); assumption.
Qed.


Lemma asm_literal_at (l rest : list ascii) (number : Z) (name : string) :
  RE_PAL_ASM l = Some ((number, name), rest) -> asm_literal l number name.
Proof.
  intros H. unfold RE_PAL_ASM, sys_name in H. peel. subst.
  exists []. do 7 eexists. split; [reflexivity|].
  repeat split; auto using decimal_value_nonneg.
  repeat (apply Forall_app; split); assumption.
Qed.

Lemma u64_decl_shift (lead : string) (pre l : list ascii) (name : string) (number : Z) :
  u64_decl lead l name number -> u64_decl lead (pre ++ l) name number.
Proof.
  intros (p0 & w & ws1 & ws2 & ws3 & ds & ws4 & rest & -> & H).
  exists (pre ++ p0), w, ws1, ws2, ws3, ds, ws4, rest.
  split; [now rewrite <- app_assoc | exact H].
Qed.

Lemma asm_literal_shift (pre l : list ascii) (number : Z) (name : string) :
  asm_literal l number name -> asm_literal (pre ++ l) number name.
Proof.
  intros (p0 & ws0 & ds & ws1 & ws2 & ws3 & w & rest & -> & H).
  exists (pre ++ p0), ws0, ds, ws1, ws2, ws3, w, rest.
  split; [now rewrite <- app_assoc | exact H].
Qed.

Lemma dict_get_set (k k' : string) (v : Z) (d : dict) :
  dict_get k (dict_set k' v d) = if String.eqb k k' then Some v else dict_get k d.
Proof.
  induction d as [|[k0 v0] d IH]; simpl.
  - destruct (String.eqb k k'); reflexivity.
  - destruct (String.eqb k' k0) eqn:E; simpl.
    + apply String.eqb_eq in E. subst k0.
      destruct (String.eqb k k'); reflexivity.
    + rewrite IH. destruct (String.eqb k k') eqn:E2; [|reflexivity].
      apply String.eqb_eq in E2. subst k'. now rewrite E.
Qed.

Lemma load_lines_from_line (lines : list string) (name : string) (number : Z) :
  dict_get name (load_lines lines) = Some number ->
  exists line, In line lines /\ search RE_CANONICAL line = Some (name, number).
Proof.
  unfold load_lines.
  assert (G : forall acc, dict_get name
     (fold_left (fun result line =>
                   match search RE_CANONICAL line with
                   | Some (name, number) => dict_set name number result
                   | None => result
                   end) lines acc) = Some number ->
     dict_get name acc = Some number \/
     exists line, In line lines /\ search RE_CANONICAL line = Some (name, number)).
  { induction lines as [|l lines IH]; intros acc H; simpl in H; [now left|].
    destruct (IH _ H) as [H1 | (line & Hin & Hs)].
    - destruct (search RE_CANONICAL l) as [[n v]|] eqn:Hl; [|now left].
      rewrite dict_get_set in H1.
      destruct (String.eqb name n) eqn:E; [|now left].
      apply String.eqb_eq in E. subst n. injection H1 as ->.
      right. exists l. split; [now left | exact Hl].
    - right. exists line. split; [now right | exact Hs]. }
  intros H. destruct (G [] H) as [H1 | H1]; [discriminate | exact H1].
Qed.

Lemma check_match_fields (canonical : dict) (rel_path : string) (i : Z)
      (name : string) (number : Z) (asm : bool) (m : mismatch) :
  In m (check_match canonical rel_path i name number asm) ->
  mm_name m = name /\ mm_number m = number /\ mm_asm m = asm.
Proof.
  unfold check_match.
  destruct (dict_get name canonical) as [e|];
    [destruct (negb (e =? number)%Z)|]; simpl;
    intros H; repeat destruct H as [H|H]; subst; auto; contradiction.
Qed.

(** Claim C10: every match of the three patterns spans a [SYS_]-prefixed
    name, a [u64] type (or [u64] literal suffix) and a nonempty run of
    decimal digits read as a non-negative number; every key of the loaded
    canonical dict comes from such a match; and every mismatch entry of a
    line comes from a match of [RE_PAL_CONST] or [RE_PAL_ASM] on that line.
    A declaration of another shape never enters the dict or an entry. *)
Theorem extraction_requires_sys_u64_decimal :
  (forall line name number, search RE_CANONICAL line = Some (name, number) ->
     u64_decl "pub const " (list_ascii_of_string line) name number) /\
  (forall line name number, search RE_PAL_CONST line = Some (name, number) ->
     u64_decl "const " (list_ascii_of_string line) name number) /\
  (forall line number name, search RE_PAL_ASM line = Some (number, name) ->
     asm_literal (list_ascii_of_string line) number name) /\
  (forall text canonical name number,
     load_canonical (Some text) = Some canonical ->
     dict_get name canonical = Some number ->
     exists line, In line (splitlines text) /\
       u64_decl "pub const " (list_ascii_of_string line) name number) /\
  (forall canonical rel_path i line m,
     In m (check_line canonical rel_path i line) ->
     (mm_asm m = false /\ search RE_PAL_CONST line = Some (mm_name m, mm_number m) /\
      u64_decl "const " (list_ascii_of_string line) (mm_name m) (mm_number m)) \/
     (mm_asm m = true /\ search RE_PAL_ASM line = Some (mm_number m, mm_name m) /\
      asm_literal (list_ascii_of_string line) (mm_number m) (mm_name m))).
Proof.
  assert (Hcan : forall line name number, search RE_CANONICAL line = Some (name, number) ->
            u64_decl "pub const " (list_ascii_of_string line) name number).
  { intros line name number H. apply search_list_sound in H.
    destruct H as (pre & suf & r & -> & Hp).
    apply u64_decl_shift. exact (u64_decl_at "pub const " suf r name number Hp). }
  assert (Hconst : forall line name number, search RE_PAL_CONST line = Some (name, number) ->
            u64_decl "const " (list_ascii_of_string line) name number).
  { intros line name number H. apply search_list_sound in H.
    destruct H as (pre & suf & r & -> & Hp).
    apply u64_decl_shift. exact (u64_decl_at "const " suf r name number Hp). }
  assert (Hasm : forall line number name, search RE_PAL_ASM line = Some (number, name) ->
            asm_literal (list_ascii_of_string line) number name).
  { intros line number name H. apply search_list_sound in H.
    destruct H as (pre & suf & r & -> & Hp).
    apply asm_literal_shift. exact (asm_literal_at suf r number name Hp). }
  split; [exact Hcan|]. split; [exact Hconst|]. split; [exact Hasm|]. split.
  - intros text canonical name number Hl H. injection Hl as <-.
    destruct (load_lines_from_line _ name number H) as (line & Hin & Hs).
    exists line. split; [exact Hin | now apply Hcan].
  - intros canonical rel_path i line m H. unfold check_line in H.
    apply in_app_or in H. destruct H as [H|H].
    + destruct (search RE_PAL_CONST line) as [[name number]|] eqn:Hs; [|contradiction].
      destruct (check_match_fields _ _ _ _ _ _ _ H) as (-> & -> & ->).
      left. repeat split; auto.
    + destruct (search RE_PAL_ASM line) as [[number name]|] eqn:Hs; [|contradiction].
      destruct (check_match_fields _ _ _ _ _ _ _ H) as (-> & -> & ->).
      right. repeat split; auto.
Qed.

Lemma extraction_requires_sys_u64_decimal_witness :
  search RE_CANONICAL "pub const SYS_READ: u64 = 0;" = Some ("SYS_READ", 0%Z) /\
  u64_decl "pub const " (list_ascii_of_string "pub const SYS_READ: u64 = 0;")
           "SYS_READ" 0 /\
  search RE_PAL_CONST "const SYS_WRITE: u64 = 2;" = Some ("SYS_WRITE", 2%Z) /\
  u64_decl "const " (list_ascii_of_string "const SYS_WRITE: u64 = 2;") "SYS_WRITE" 2 /\
  search RE_PAL_ASM asm_line = Some (12%Z, "SYS_OPEN") /\
  asm_literal (list_ascii_of_string asm_line) 12 "SYS_OPEN".
Proof.
  destruct extraction_requires_sys_u64_decimal as (A & B & C & _ & _).
  assert (H1 : search RE_CANONICAL "pub const SYS_READ: u64 = 0;" = Some ("SYS_READ", 0%Z))
    by (vm_compute; reflexivity).
  assert (H2 : search RE_PAL_CONST "const SYS_WRITE: u64 = 2;" = Some ("SYS_WRITE", 2%Z))
    by (vm_compute; reflexivity).
  assert (H3 : search RE_PAL_ASM asm_line = Some (12%Z, "SYS_OPEN"))
    by (vm_compute; reflexivity).
  exact (conj H1 (conj (A _ _ _ H1) (conj H2 (conj (B _ _ _ H2)
           (conj H3 (C _ _ _ H3)))))).
Defined.

(** *** Mismatch entries and exit codes *)

(** Claim C2: the entries of a line are those of its [RE_PAL_CONST] match
    followed by those of its [RE_PAL_ASM] match; a match [(name, number)]
    yields exactly one value mismatch (found [number], expected the canonical
    value) when the canonical value differs, exactly one unknown-identifier
    entry when [name] is not canonical, and nothing when the values agree.
    On the spec's round trip the run reports exactly one value mismatch for
    [SYS_WRITE] (found 2, expected 1) and exits 1. *)
Theorem check_line_entries :
  (forall canonical rel_path i line,
     check_line canonical rel_path i line =
       match search RE_PAL_CONST line with
       | Some (name, number) => check_match canonical rel_path i name number false
       | None => []
       end ++
       match search RE_PAL_ASM line with
       | Some (number, name) => check_match canonical rel_path i name number true
       | None => []
       end) /\
  (forall canonical rel_path i name number asm,
     (forall expected, dict_get name canonical = Some expected -> expected <> number ->
        check_match canonical rel_path i name number asm
        = [mk_mismatch rel_path i name number asm (Some expected)]) /\
     (dict_get name canonical = None ->
        check_match canonical rel_path i name number asm
        = [mk_mismatch rel_path i name number asm None]) /\
     (dict_get name canonical = Some number ->
        check_match canonical rel_path i name number asm = [])) /\
  check_pal_files [("SYS_READ", 0%Z); ("SYS_WRITE", 1%Z)] (pal_dir round_trip_env)
    = [mk_mismatch "rust-std-sabos/pal.rs" 1 "SYS_WRITE" 2 false (Some 1%Z)] /\
  exit_code (main round_trip_env) = 1%Z.
Proof.
  split; [reflexivity|]. split.
  - intros canonical rel_path i name number asm. unfold check_match.
    split; [|split].
    + intros expected -> Hne. apply Z.eqb_neq in Hne. now rewrite Hne.
    + now intros ->.
    + intros ->. now rewrite Z.eqb_refl.
  - split; vm_compute; reflexivity.
Qed.

Lemma check_line_entries_witness :
  dict_get "SYS_WRITE" [("SYS_WRITE", 1%Z)] = Some 1%Z /\ (1 <> 2)%Z /\
  check_match [("SYS_WRITE", 1%Z)] "rust-std-sabos/pal.rs" 1 "SYS_WRITE" 2 false
    = [mk_mismatch "rust-std-sabos/pal.rs" 1 "SYS_WRITE" 2 false (Some 1%Z)].
Proof.
  assert (H1 : dict_get "SYS_WRITE" [("SYS_WRITE", 1%Z)] = Some 1%Z) by reflexivity.
  assert (H2 : (1 <> 2)%Z) by lia.
  destruct check_line_entries as (_ & B & _).
  exact (conj H1 (conj H2 (proj1 (B [("SYS_WRITE", 1%Z)] "rust-std-sabos/pal.rs" 1%Z
                                     "SYS_WRITE" 2%Z false) 1%Z H1 H2))).
Defined.

(** Claim C7: a missing canonical file ends the run with exit code 2, one
    error line on stderr, nothing on stdout and nothing read; otherwise
    stderr stays empty, the exit code is 0 when the mismatch list is empty
    and 1 when it is not, and then stdout ends with every entry, in order. *)
Theorem checker_exit_codes (e : env) :
  (canonical_file e = None ->
     main e = mk_run 2 [] ["ERROR: canonical file not found: " +:+ canonical_path e] []) /\
  (forall text, canonical_file e = Some text ->
     let canonical := load_lines (splitlines text) in
     let errors := check_pal_files canonical (pal_dir e) in
     err (main e) = [] /\
     (errors = [] -> exit_code (main e) = 0%Z) /\
     (errors <> [] -> exit_code (main e) = 1%Z /\
        out (main e) =
          ["Loaded " +:+ show_Z (Z.of_nat (length canonical))
             +:+ " syscall definitions from canonical source";
           nl_str +:+ "FAILED: " +:+ show_Z (Z.of_nat (length errors))
             +:+ " syscall number mismatch(es) found:"] ++ map render errors)).
Proof.
  split.
  - intros H. unfold main, load_canonical. now rewrite H.
  - intros text H. cbv zeta. unfold main, load_canonical. rewrite H.
    destruct (check_pal_files (load_lines (splitlines text)) (pal_dir e)) as [|m ms].
    + split; [reflexivity | split; [intros _; reflexivity | intros C; now destruct C]].
    + split; [reflexivity | split; [intros C; discriminate C | intros _; split; reflexivity]].
Qed.

Lemma checker_exit_codes_witness :
  (canonical_file round_trip_env = None ->
     main round_trip_env
     = mk_run 2 [] ["ERROR: canonical file not found: " +:+ canonical_path round_trip_env] []) /\
  (forall text, canonical_file round_trip_env = Some text ->
     let canonical := load_lines (splitlines text) in
     let errors := check_pal_files canonical (pal_dir round_trip_env) in
     err (main round_trip_env) = [] /\
     (errors = [] -> exit_code (main round_trip_env) = 0%Z) /\
     (errors <> [] -> exit_code (main round_trip_env) = 1%Z /\
        out (main round_trip_env) =
          ["Loaded " +:+ show_Z (Z.of_nat (length canonical))
             +:+ " syscall definitions from canonical source";
           nl_str +:+ "FAILED: " +:+ show_Z (Z.of_nat (length errors))
             +:+ " syscall number mismatch(es) found:"] ++ map render errors)).
Proof. exact (checker_exit_codes round_trip_env). Defined.

(** Claim C9: without the dependent directory, [check_pal_files] returns
    the empty list for every canonical dict, and a run whose canonical file
    exists exits 0. *)
Theorem missing_pal_dir_consistent :
  (forall canonical, check_pal_files canonical None = []) /\
  (forall e text, canonical_file e = Some text -> pal_dir e = None ->
     exit_code (main e) = 0%Z).
Proof.
  split; [reflexivity|].
  intros e text Hc Hp. unfold main, load_canonical. now rewrite Hc, Hp.
Qed.

Lemma missing_pal_dir_consistent_witness :
  canonical_file (mk_env "/sabos" (Some "pub const SYS_READ: u64 = 0;") None)
    = Some "pub const SYS_READ: u64 = 0;" /\
  pal_dir (mk_env "/sabos" (Some "pub const SYS_READ: u64 = 0;") None) = None /\
  exit_code (main (mk_env "/sabos" (Some "pub const SYS_READ: u64 = 0;") None)) = 0%Z.
Proof.
  split; [reflexivity | split; [reflexivity|]].
  exact (proj2 missing_pal_dir_consistent
           (mk_env "/sabos" (Some "pub const SYS_READ: u64 = 0;") None)
           "pub const SYS_READ: u64 = 0;" eq_refl eq_refl).
Defined.

End CheckFacts.

(** ** Further properties of the syscall-number checker *)

Module CheckExtras.
Import CheckSyscallNumbers.

(** *** Helpers *)

Lemma load_fold_get (ls : list string) (d : dict) (name : string) :
  Forall (fun l => forall v, search RE_CANONICAL l <> Some (name, v)) ls ->
  dict_get name (fold_left (fun result line =>
                              match search RE_CANONICAL line with
                              | Some (name, number) => dict_set name number result
                              | None => result
                              end) ls d) = dict_get name d.
Proof.
  revert d. induction ls as [|l ls IH]; intros d H; [reflexivity|].
  inversion H as [|? ? Hl Hls]; subst. cbn [fold_left]. rewrite IH by exact Hls.
  destruct (search RE_CANONICAL l) as [[n v]|] eqn:E; [|reflexivity].
  rewrite CheckFacts.dict_get_set.
  destruct (String.eqb name n) eqn:En; [|reflexivity].
  apply String.eqb_eq in En. subst n. exfalso. exact (Hl v eq_refl).
Qed.

Lemma dict_set_keys (k : string) (v : Z) (d : dict) :
  NoDup (map fst d) ->
  NoDup (map fst (dict_set k v d)) /\
  (forall n, In n (map fst (dict_set k v d)) <-> n = k \/ In n (map fst d)).
Proof.
  induction d as [|[k' v'] d IH]; intros Hnd.
  - cbn. split; [repeat constructor; intros []|]. intros n. split; intros [H|H]; auto.
  - cbn [dict_set]. inversion Hnd as [|? ? Hnin Hnd']; subst.
    destruct (String.eqb k k') eqn:E.
    + apply String.eqb_eq in E. subst k'. split; [exact Hnd|].
      intros n. cbn [map fst In]. split; [intros H; now right|].
      intros [H|H]; [now left | exact H].
    + apply String.eqb_neq in E. destruct (IH Hnd') as [Hnd2 Hin2].
      cbn [map fst]. split.
      * constructor; [|exact Hnd2]. rewrite Hin2. intros [H|H]; [congruence | contradiction].
      * intros n. cbn [In]. rewrite Hin2. tauto.
Qed.

Lemma load_fold_keys (ls : list string) (d : dict) :
  NoDup (map fst d) ->
  let d' := fold_left (fun result line =>
                         match search RE_CANONICAL line with
                         | Some (name, number) => dict_set name number result
                         | None => result
                         end) ls d in
  NoDup (map fst d') /\
  forall n, In n (map fst d') <->
            In n (map fst d) \/ exists l v, In l ls /\ search RE_CANONICAL l = Some (n, v).
Proof.
  revert d. induction ls as [|l ls IH]; intros d Hnd; cbv zeta.
  - split; [exact Hnd|]. intros n. split; [now left|].
    intros [H | (l & v & [] & _)]. exact H.
  - cbn [fold_left].
    destruct (search RE_CANONICAL l) as [[m v]|] eqn:E.
    + destruct (dict_set_keys m v d Hnd) as [Hnd1 Hin1].
      destruct (IH (dict_set m v d) Hnd1) as [Hnd2 Hin2]. split; [exact Hnd2|].
      intros n. rewrite Hin2, Hin1. split.
      * intros [[-> | H] | (l' & v' & Hl' & E')].
        -- right. exists l, v. split; [now left | exact E].
        -- now left.
        -- right. exists l', v'. split; [now right | exact E'].
      * intros [H | (l' & v' & [<- | Hl'] & E')].
        -- left. now right.
        -- rewrite E in E'. injection E' as -> _. left. now left.
        -- right. now exists l', v'.
    + destruct (IH d Hnd) as [Hnd2 Hin2]. split; [exact Hnd2|].
      intros n. rewrite Hin2. split.
      * intros [H | (l' & v' & Hl' & E')]; [now left|].
        right. exists l', v'. split; [now right | exact E'].
      * intros [H | (l' & v' & [<- | Hl'] & E')]; [now left | congruence |].
        right. now exists l', v'.
Qed.

Lemma compare_le_trans (a b c : string) :
  String.compare a b <> Gt -> String.compare b c <> Gt -> String.compare a c <> Gt.
Proof.
  revert b c.
  induction a as [|x a IH]; intros [|y b] [|z c]; cbn [String.compare]; intros H1 H2;
    try congruence.
  unfold Ascii.compare in *.
  destruct (N.compare_spec (N_of_ascii x) (N_of_ascii y));
    destruct (N.compare_spec (N_of_ascii y) (N_of_ascii z));
    destruct (N.compare_spec (N_of_ascii x) (N_of_ascii z));
    cbv beta iota in *; try congruence; try lia; eauto.
Qed.


Lemma leb_trans_str (a b c : string) :
  String.leb a b = true -> String.leb b c = true -> String.leb a c = true.
Proof.
  unfold String.leb. intros H1 H2.
  destruct (String.compare a c) eqn:E; [reflexivity|reflexivity|].
  exfalso. apply (compare_le_trans a b c); [| |exact E];
    intros E'; rewrite E' in *; discriminate.
Qed.

Lemma insert_sorted_perm (x : string * string) (l : list (string * string)) :
  Permutation (insert_sorted x l) (x :: l).
Proof.
  induction l as [|y l IH]; cbn [insert_sorted]; [reflexivity|].
  destruct (String.leb (fst x) (fst y)); [reflexivity|].
  rewrite IH. apply perm_swap.
Qed.

Lemma sort_entries_perm (l : list (string * string)) : Permutation (sort_entries l) l.
Proof.
  induction l as [|x l IH]; [reflexivity|]. unfold sort_entries in *. cbn [fold_right].
  rewrite insert_sorted_perm, IH. reflexivity.
Qed.

Lemma insert_sorted_sorted (x : string * string) (l : list (string * string)) :
  StronglySorted (fun a b => String.leb (fst a) (fst b) = true) l ->
  StronglySorted (fun a b => String.leb (fst a) (fst b) = true) (insert_sorted x l).
Proof.
  induction l as [|y l IH]; intros Hs; cbn [insert_sorted].
  - repeat constructor.
  - inversion Hs as [|? ? Hs' Hf]; subst.
    destruct (String.leb (fst x) (fst y)) eqn:E.
    + constructor; [exact Hs|]. constructor; [exact E|].
      rewrite Forall_forall in *. intros z Hz. eapply leb_trans_str; [exact E | now apply Hf].
    + constructor; [now apply IH|]. rewrite Forall_forall in *. intros z Hz.
      apply (Permutation_in _ (insert_sorted_perm x l)) in Hz. destruct Hz as [<- | Hz].
      * destruct (String.leb_total (fst x) (fst y)) as [H|H]; [congruence | exact H].
      * now apply Hf.
Qed.

Lemma sort_entries_sorted (l : list (string * string)) :
  StronglySorted (fun a b => String.leb (fst a) (fst b) = true) (sort_entries l).
Proof.
  induction l as [|x l IH]; [constructor|]. unfold sort_entries in *. cbn [fold_right].
  now apply insert_sorted_sorted.
Qed.

Lemma sorted_unique (l1 l2 : list (string * string)) :
  StronglySorted (fun a b => String.leb (fst a) (fst b) = true) l1 ->
  StronglySorted (fun a b => String.leb (fst a) (fst b) = true) l2 ->
  Permutation l1 l2 -> NoDup (map fst l1) -> l1 = l2.
Proof.
  revert l2. induction l1 as [|x l1 IH]; intros l2 S1 S2 P Hnd.
  - symmetry. now apply Permutation_nil.
  - destruct l2 as [|y l2]; [apply Permutation_sym in P; now apply Permutation_nil_cons in P|].
    inversion S1 as [|? ? S1' F1]; subst. inversion S2 as [|? ? S2' F2]; subst.
    inversion Hnd as [|? ? Hnin Hnd']; subst.
    assert (Exy : x = y).
    { assert (Hx : In x (y :: l2)) by (apply (Permutation_in _ P); now left).
      assert (Hy : In y (x :: l1)) by (apply (Permutation_in _ (Permutation_sym P)); now left).
      destruct Hx as [Hx|Hx]; [congruence|]. destruct Hy as [Hy|Hy]; [congruence|].
      exfalso.
      rewrite Forall_forall in F1, F2.
      assert (K : fst x = fst y) by (apply String.leb_antisym; [now apply F1 | now apply F2]).
      apply Hnin. rewrite K. now apply in_map. }
    subst y. f_equal. apply IH; auto. now apply Permutation_cons_inv in P.
Qed.

Lemma Permutation_filter_gen {A} (f : A -> bool) (l1 l2 : list A) :
  Permutation l1 l2 -> Permutation (filter f l1) (filter f l2).
Proof.
  induction 1 as [|x l1 l2 _ IH|x y l|l1 l2 l3 _ IH1 _ IH2]; cbn [filter].
  - constructor.
  - destruct (f x); [now constructor | exact IH].
  - destruct (f x), (f y); try constructor; reflexivity.
  - now rewrite IH1.
Qed.

Lemma NoDup_map_filter {A B} (g : A -> B) (f : A -> bool) (l : list A) :
  NoDup (map g l) -> NoDup (map g (filter f l)).
Proof.
  induction l as [|x l IH]; intros H; cbn [filter]; [constructor|].
  inversion H as [|? ? Hnin Hnd]; subst.
  destruct (f x); cbn [map]; [|now apply IH]. constructor; [|now apply IH].
  intros Hin. apply Hnin. apply in_map_iff in Hin. destruct Hin as (y & Hy & Hin).
  apply filter_In in Hin. rewrite <- Hy. apply in_map. exact (proj1 Hin).
Qed.

Lemma pal_files_perm (e1 e2 : list (string * string)) :
  Permutation e1 e2 -> NoDup (map fst e1) -> pal_files e1 = pal_files e2.
Proof.
  intros P Hnd. unfold pal_files. apply sorted_unique; try apply sort_entries_sorted.
  - rewrite !sort_entries_perm. now apply Permutation_filter_gen.
  - apply (Permutation_NoDup (Permutation_map fst (Permutation_sym (sort_entries_perm _)))).
    now apply NoDup_map_filter.
Qed.

Lemma in_pal_files (entries : list (string * string)) (x : string * string) :
  In x (pal_files entries) <-> In x entries /\ is_rs (fst x) = true.
Proof.
  unfold pal_files. split; intros H.
  - apply (Permutation_in _ (sort_entries_perm _)) in H.
    exact (proj1 (filter_In (fun e => is_rs (fst e)) x entries) H).
  - apply (Permutation_in _ (Permutation_sym (sort_entries_perm _))).
    exact (proj2 (filter_In (fun e => is_rs (fst e)) x entries) H).
Qed.

Lemma check_lines_In (c : dict) (p : string) (i : Z) (lines : list string) (m : mismatch) :
  In m (check_lines c p i lines) <->
  exists k line, nth_error lines k = Some line /\ In m (check_line c p (i + Z.of_nat k) line).
Proof.
  revert i. induction lines as [|line lines IH]; intros i; cbn [check_lines].
  - split; [intros []|]. intros (k & line & H & _). destruct k; discriminate.
  - rewrite in_app_iff, IH. split.
    + intros [H | (k & l & Hk & H)].
      * exists O, line. split; [reflexivity|]. now rewrite Z.add_0_r.
      * exists (S k), l. split; [exact Hk|].
        replace (i + Z.of_nat (S k))%Z with (i + 1 + Z.of_nat k)%Z by lia. exact H.
    + intros ([|k] & l & Hk & H); cbn [nth_error] in Hk.
      * injection Hk as <-. left. now rewrite Z.add_0_r in H.
      * right. exists k, l. split; [exact Hk|].
        replace (i + 1 + Z.of_nat k)%Z with (i + Z.of_nat (S k))%Z by lia. exact H.
Qed.

Lemma check_match_In (c : dict) (p : string) (i : Z) (name : string) (number : Z)
      (asm : bool) (m : mismatch) :
  In m (check_match c p i name number asm) <->
  m = mk_mismatch p i name number asm (dict_get name c) /\ dict_get name c <> Some number.
Proof.
  unfold check_match. destruct (dict_get name c) as [e|].
  - destruct (Z.eqb_spec e number) as [->|Ne]; cbn [negb In].
    + split; [intros []|]. intros [_ H]. now apply H.
    + split; [intros [<-|[]]; split; [reflexivity | congruence]|].
      intros [-> _]. now left.
  - cbn [In]. split; [intros [<-|[]]; split; [reflexivity | discriminate]|].
    intros [-> _]. now left.
Qed.

Lemma check_line_In (c : dict) (p : string) (i : Z) (line : string) (m : mismatch) :
  In m (check_line c p i line) <->
  mm_path m = p /\ mm_line m = i /\
  (if mm_asm m then search RE_PAL_ASM line = Some (mm_number m, mm_name m)
   else search RE_PAL_CONST line = Some (mm_name m, mm_number m)) /\
  mm_expected m = dict_get (mm_name m) c /\ mm_expected m <> Some (mm_number m).
Proof.
  unfold check_line. rewrite in_app_iff. split.
  - intros [H|H].
    + destruct (search RE_PAL_CONST line) as [[n v]|] eqn:E; [|destruct H].
      apply check_match_In in H. destruct H as [-> H]. cbn. repeat split; auto.
    + destruct (search RE_PAL_ASM line) as [[v n]|] eqn:E; [|destruct H].
      apply check_match_In in H. destruct H as [-> H]. cbn. repeat split; auto.
  - destruct m as [mp ml mn mv [|] me]; cbn.
    + intros (-> & -> & E & -> & H). right. rewrite E. now apply check_match_In.
    + intros (-> & -> & E & -> & H). left. rewrite E. now apply check_match_In.
Qed.

Lemma check_pal_files_In_sound (c : dict) (entries : list (string * string))
      (m : mismatch) :
  In m (check_pal_files c (Some entries)) ->
  exists name content k line,
    In (name, content) entries /\ is_rs name = true /\
    mm_path m = "rust-std-sabos/" +:+ name /\
    nth_error (splitlines content) k = Some line /\ mm_line m = (Z.of_nat k + 1)%Z /\
    (if mm_asm m then search RE_PAL_ASM line = Some (mm_number m, mm_name m)
     else search RE_PAL_CONST line = Some (mm_name m, mm_number m)) /\
    mm_expected m = dict_get (mm_name m) c /\ mm_expected m <> Some (mm_number m).
Proof.
  cbn [check_pal_files]. intros H. apply in_flat_map in H.
  destruct H as ([name content] & Hx & H). apply in_pal_files in Hx.
  apply check_lines_In in H. destruct H as (k & line & Hk & H).
  apply check_line_In in H. destruct H as (Hp & Hi & Hs & He & Hne).
  exists name, content, k, line. repeat split; try tauto. lia.
Qed.

Lemma check_pal_files_In_complete (c : dict) (entries : list (string * string))
      (name content line n : string) (k : nat) (v : Z) (asm : bool) :
  In (name, content) entries -> is_rs name = true ->
  nth_error (splitlines content) k = Some line ->
  (if asm then search RE_PAL_ASM line = Some (v, n)
   else search RE_PAL_CONST line = Some (n, v)) ->
  dict_get n c <> Some v ->
  In (mk_mismatch ("rust-std-sabos/" +:+ name) (Z.of_nat k + 1) n v asm (dict_get n c))
     (check_pal_files c (Some entries)).
Proof.
  intros Hin Hrs Hk Hs Hne. cbn [check_pal_files]. apply in_flat_map.
  exists (name, content). split; [now apply in_pal_files|].
  apply check_lines_In. exists k, line. split; [exact Hk|].
  apply check_line_In. cbn [mm_path mm_line mm_asm mm_number mm_name mm_expected].
  repeat split; auto. lia.
Qed.

Lemma splitlines_aux_line (cur lx rest : list ascii) :
  Forall (fun c => is_line_break c = false) lx ->
  splitlines_aux cur (lx ++ nl :: rest) =
  string_of_list_ascii (rev cur ++ lx) :: splitlines_aux [] rest.
Proof.
  revert cur. induction lx as [|a lx IH]; intros cur H; cbn [app splitlines_aux].
  - cbn. now rewrite app_nil_r.
  - inversion H as [|? ? Ha Hlx]; subst. rewrite Ha, IH by exact Hlx.
    cbn [rev]. now rewrite <- app_assoc.
Qed.

Lemma splitlines_aux_last (cur lx : list ascii) :
  Forall (fun c => is_line_break c = false) lx ->
  splitlines_aux cur lx =
  match rev cur ++ lx with [] => [] | _ => [string_of_list_ascii (rev cur ++ lx)] end.
Proof.
  revert cur. induction lx as [|a lx IH]; intros cur H; cbn [splitlines_aux].
  - rewrite app_nil_r. destruct cur as [|c cur]; [reflexivity|].
    cbn [rev]. destruct (rev cur ++ [c]) eqn:E; [|reflexivity].
    symmetry in E. now apply app_cons_not_nil in E.
  - inversion H as [|? ? Ha Hlx]; subst. rewrite Ha, IH by exact Hlx.
    cbn [rev]. rewrite <- app_assoc. reflexivity.
Qed.

(** *** Properties *)

(** [load_canonical] (lines 47-51): when a name is declared on several
    lines, the dict holds the number of the last one. *)
Theorem load_canonical_last_wins (text l name : string) (number : Z)
        (pre post : list string) :
  splitlines text = pre ++ l :: post ->
  search RE_CANONICAL l = Some (name, number) ->
  Forall (fun l' => forall v, search RE_CANONICAL l' <> Some (name, v)) post ->
  option_map (dict_get name) (load_canonical (Some text)) = Some (Some number).
Proof.
  intros Hs Hl Hpost. cbn [load_canonical option_map]. f_equal.
  unfold load_lines. rewrite Hs, fold_left_app. cbn [fold_left]. rewrite Hl.
  rewrite load_fold_get by exact Hpost.
  rewrite CheckFacts.dict_get_set, String.eqb_refl. reflexivity.
Qed.

Lemma load_canonical_last_wins_witness :
  option_map (dict_get "SYS_A")
    (load_canonical (Some (join_nl ["pub const SYS_A: u64 = 1;";
                                    "pub const SYS_A: u64 = 2;"]))) = Some (Some 2%Z).
Proof.
  apply (load_canonical_last_wins _ "pub const SYS_A: u64 = 2;" "SYS_A" 2
           ["pub const SYS_A: u64 = 1;"] []).
  - vm_compute. reflexivity.
  - vm_compute. reflexivity.
  - constructor.
Defined.

(** [load_canonical] (lines 40-52): the loaded dict has one entry per name,
    and its names are exactly those matched by [RE_CANONICAL] on some line of
    the canonical file; so the count printed as [Loaded N] is the number of
    distinct matched names. *)
Theorem load_canonical_keys (text : string) :
  exists d, load_canonical (Some text) = Some d /\ NoDup (map fst d) /\
    forall name, In name (map fst d) <->
      exists l v, In l (splitlines text) /\ search RE_CANONICAL l = Some (name, v).
Proof.
  exists (load_lines (splitlines text)). split; [reflexivity|].
  destruct (load_fold_keys (splitlines text) [] (NoDup_nil _)) as [Hnd Hin].
  split; [exact Hnd|]. intros name. unfold load_lines. rewrite Hin. cbn [map In].
  tauto.
Qed.

(** [check_pal_files] and [main] (lines 58 and 101-114): for a directory
    whose entries have distinct names, the order in which the directory
    lists them does not change the run. *)
Theorem checker_order_independent (root : string) (canonical : option string)
        (e1 e2 : list (string * string)) :
  Permutation e1 e2 -> NoDup (map fst e1) ->
  main (mk_env root canonical (Some e1)) = main (mk_env root canonical (Some e2)).
Proof.
  intros P Hnd. unfold main, check_pal_files. cbn [pal_dir canonical_file project_root].
  now rewrite (pal_files_perm e1 e2 P Hnd).
Qed.

Lemma checker_order_independent_witness :
  main (mk_env "/p" (Some "pub const SYS_A: u64 = 1;")
          (Some [("b.rs", "const SYS_A: u64 = 2;"); ("a.rs", "const SYS_A: u64 = 3;")]))
  = main (mk_env "/p" (Some "pub const SYS_A: u64 = 1;")
          (Some [("a.rs", "const SYS_A: u64 = 3;"); ("b.rs", "const SYS_A: u64 = 2;")])).
Proof.
  apply checker_order_independent.
  - apply perm_swap.
  - apply NoDup_cons; [cbn; intros [H|H]; [discriminate | destruct H]|].
    apply NoDup_cons; [intros [] | constructor].
Defined.

(** [check_pal_files] (lines 55-98): every reported mismatch comes from a
    [.rs] entry of the directory, is reported under
    [rust-std-sabos/<name>] at the 1-based number of a line of that file,
    names a match of the constant pattern (or, when flagged [u64], of the
    assembly pattern) on that line, and its number differs from the
    canonical dict's value for that name, which it carries ([None] when the
    name is absent). *)
Theorem check_pal_files_sound (c : dict) (entries : list (string * string))
        (m : mismatch) :
  In m (check_pal_files c (Some entries)) ->
  exists name content k line,
    In (name, content) entries /\ is_rs name = true /\
    mm_path m = "rust-std-sabos/" +:+ name /\
    nth_error (splitlines content) k = Some line /\ mm_line m = (Z.of_nat k + 1)%Z /\
    (if mm_asm m then search RE_PAL_ASM line = Some (mm_number m, mm_name m)
     else search RE_PAL_CONST line = Some (mm_name m, mm_number m)) /\
    mm_expected m = dict_get (mm_name m) c /\ mm_expected m <> Some (mm_number m).
Proof.
  exact (check_pal_files_In_sound c entries m).
Qed.

Lemma check_pal_files_sound_witness :
  exists name content k line,
    In (name, content) [("pal.rs", "const SYS_WRITE: u64 = 2;")] /\ is_rs name = true /\
    "rust-std-sabos/pal.rs" = "rust-std-sabos/" +:+ name /\
    nth_error (splitlines content) k = Some line /\ (1 = Z.of_nat k + 1)%Z /\
    search RE_PAL_CONST line = Some ("SYS_WRITE", 2%Z) /\
    Some 1%Z = dict_get "SYS_WRITE" [("SYS_READ", 0%Z); ("SYS_WRITE", 1%Z)] /\
    Some 1%Z <> Some 2%Z.
Proof.
  exact (check_pal_files_sound [("SYS_READ", 0%Z); ("SYS_WRITE", 1%Z)]
           [("pal.rs", "const SYS_WRITE: u64 = 2;")]
           (mk_mismatch "rust-std-sabos/pal.rs" 1 "SYS_WRITE" 2 false (Some 1%Z))
           ltac:(vm_compute; left; reflexivity)).
Defined.

(** [check_pal_files] (lines 55-98): conversely, every match of either
    pattern on a line of a [.rs] entry whose number differs from the
    canonical dict's value (or whose name is absent from it) is reported. *)
Theorem check_pal_files_complete (c : dict) (entries : list (string * string))
        (name content line n : string) (k : nat) (v : Z) (asm : bool) :
  In (name, content) entries -> is_rs name = true ->
  nth_error (splitlines content) k = Some line ->
  (if asm then search RE_PAL_ASM line = Some (v, n)
   else search RE_PAL_CONST line = Some (n, v)) ->
  dict_get n c <> Some v ->
  In (mk_mismatch ("rust-std-sabos/" +:+ name) (Z.of_nat k + 1) n v asm (dict_get n c))
     (check_pal_files c (Some entries)).
Proof.
  exact (check_pal_files_In_complete c entries name content line n k v asm).
Qed.

Lemma check_pal_files_complete_witness :
  In (mk_mismatch ("rust-std-sabos/" +:+ "pal.rs") (Z.of_nat 0 + 1) "SYS_WRITE" 2 false
        (dict_get "SYS_WRITE" [("SYS_READ", 0%Z); ("SYS_WRITE", 1%Z)]))
     (check_pal_files [("SYS_READ", 0%Z); ("SYS_WRITE", 1%Z)]
        (Some [("pal.rs", "const SYS_WRITE: u64 = 2;")])).
Proof.
  apply (check_pal_files_complete _ _ "pal.rs" "const SYS_WRITE: u64 = 2;"
           "const SYS_WRITE: u64 = 2;" "SYS_WRITE" 0 2 false).
  - now left.
  - reflexivity.
  - vm_compute. reflexivity.
  - vm_compute. reflexivity.
  - vm_compute. discriminate.
Defined.

(** [main] (lines 101-114): once the canonical file is found, the run
    passes (exit code 0) exactly when every match of either pattern on every
    line of every [.rs] entry carries the number the canonical dict gives
    its name. *)
Theorem checker_passes_iff (e : env) (text : string) :
  canonical_file e = Some text ->
  (exit_code (main e) = 0%Z <->
   forall entries name content line,
     pal_dir e = Some entries -> In (name, content) entries -> is_rs name = true ->
     In line (splitlines content) ->
     (forall n v, search RE_PAL_CONST line = Some (n, v) ->
                  dict_get n (load_lines (splitlines text)) = Some v) /\
     (forall v n, search RE_PAL_ASM line = Some (v, n) ->
                  dict_get n (load_lines (splitlines text)) = Some v)).
Proof.
  intros Hc.
  assert (E : exit_code (main e) = 0%Z <->
              check_pal_files (load_lines (splitlines text)) (pal_dir e) = []).
  { unfold main. rewrite Hc. cbn [load_canonical].
    destruct (check_pal_files (load_lines (splitlines text)) (pal_dir e));
      cbn; split; congruence. }
  rewrite E. split.
  - intros H0 entries name content line Hp Hin Hrs Hl. rewrite Hp in H0.
    apply In_nth_error in Hl. destruct Hl as [k Hk].
    split.
    + intros n v Hs.
      assert (D : {dict_get n (load_lines (splitlines text)) = Some v} +
                  {dict_get n (load_lines (splitlines text)) <> Some v})
        by (decide equality; apply Z.eq_dec).
      destruct D as [Eq|Ne]; [exact Eq|exfalso].
      pose proof (check_pal_files_In_complete _ entries name content line n k v false
                    Hin Hrs Hk Hs Ne) as H. rewrite H0 in H. destruct H.
    + intros v n Hs.
      assert (D : {dict_get n (load_lines (splitlines text)) = Some v} +
                  {dict_get n (load_lines (splitlines text)) <> Some v})
        by (decide equality; apply Z.eq_dec).
      destruct D as [Eq|Ne]; [exact Eq|exfalso].
      pose proof (check_pal_files_In_complete _ entries name content line n k v true
                    Hin Hrs Hk Hs Ne) as H. rewrite H0 in H. destruct H.
  - intros H. destruct (pal_dir e) as [entries|] eqn:Hp; [|reflexivity].
    destruct (check_pal_files (load_lines (splitlines text)) (Some entries))
      as [|m ms] eqn:Ec; [reflexivity|].
    exfalso.
    assert (Hm : In m (check_pal_files (load_lines (splitlines text)) (Some entries)))
      by (rewrite Ec; now left).
    apply check_pal_files_In_sound in Hm.
    destruct Hm as (name & content & k & line & Hin & Hrs & _ & Hk & _ & Hs & He & Hne).
    destruct (H entries name content line eq_refl Hin Hrs (nth_error_In _ _ Hk)) as [H1 H2].
    apply Hne. rewrite He. destruct (mm_asm m); [apply H2 | apply H1]; exact Hs.
Qed.

Lemma checker_passes_iff_witness :
  (exit_code (main (mk_env "/p" (Some "pub const SYS_A: u64 = 1;")
                      (Some [("a.rs", "const SYS_A: u64 = 1;")]))) = 0%Z <->
   forall entries name content line,
     Some [("a.rs", "const SYS_A: u64 = 1;")] = Some entries ->
     In (name, content) entries -> is_rs name = true ->
     In line (splitlines content) ->
     (forall n v, search RE_PAL_CONST line = Some (n, v) ->
                  dict_get n (load_lines (splitlines "pub const SYS_A: u64 = 1;")) = Some v) /\
     (forall v n, search RE_PAL_ASM line = Some (v, n) ->
                  dict_get n (load_lines (splitlines "pub const SYS_A: u64 = 1;")) = Some v)).
Proof.
  exact (checker_passes_iff (mk_env "/p" (Some "pub const SYS_A: u64 = 1;")
                               (Some [("a.rs", "const SYS_A: u64 = 1;")]))
           "pub const SYS_A: u64 = 1;" eq_refl).
Defined.

(** [text.splitlines()] on text whose lines are separated by ["\n"] only:
    when every line ends in ["\n"], the lines come back exactly, so line
    [k] of the report is the [k]-th newline-terminated line of the file;
    without the final ["\n"] the same holds as long as the last line is not
    empty. *)
Theorem splitlines_lf (ls : list string) :
  Forall (fun l => Forall (fun c => is_line_break c = false) (list_ascii_of_string l)) ls ->
  splitlines (join_nl (ls ++ [EmptyString])) = ls /\
  (ls <> [] -> last ls EmptyString <> EmptyString -> splitlines (join_nl ls) = ls).
Proof.
  induction ls as [|l ls IH]; intros H.
  - split; [reflexivity|]. intros Hne. now contradiction Hne.
  - inversion H as [|? ? Hl Hls]; subst. destruct (IH Hls) as [IH1 IH2]. split.
    + cbn [app]. rewrite join_nl_cons by (destruct ls; discriminate).
      unfold splitlines. rewrite !list_ascii_of_string_app. unfold nl_str.
      cbn [list_ascii_of_string app]. rewrite splitlines_aux_line by exact Hl.
      cbn [rev app]. rewrite string_of_list_ascii_of_string. f_equal. exact IH1.
    + intros _ Hlast. destruct ls as [|l2 ls].
      * cbn [join_nl]. unfold splitlines. rewrite splitlines_aux_last by exact Hl.
        cbn [rev app]. destruct (list_ascii_of_string l) eqn:El.
        -- destruct l; [now contradiction Hlast | discriminate].
        -- rewrite <- El, string_of_list_ascii_of_string. reflexivity.
      * rewrite join_nl_cons by discriminate.
        unfold splitlines. rewrite !list_ascii_of_string_app. unfold nl_str.
        cbn [list_ascii_of_string app]. rewrite splitlines_aux_line by exact Hl.
        cbn [rev app]. rewrite string_of_list_ascii_of_string. f_equal.
        apply IH2; [discriminate | exact Hlast].
Qed.

Lemma splitlines_lf_witness :
  splitlines (join_nl (["const SYS_A: u64 = 1;"; EmptyString; "x"] ++ [EmptyString]))
    = ["const SYS_A: u64 = 1;"; EmptyString; "x"] /\
  (["const SYS_A: u64 = 1;"; EmptyString; "x"] <> [] ->
   last ["const SYS_A: u64 = 1;"; EmptyString; "x"] EmptyString <> EmptyString ->
   splitlines (join_nl ["const SYS_A: u64 = 1;"; EmptyString; "x"])
     = ["const SYS_A: u64 = 1;"; EmptyString; "x"]).
Proof.
  apply splitlines_lf. repeat constructor.
Defined.

End CheckExtras.
